(** * goCheck: running the Go tools and normalising their output

    A shallow embedding of [src/goCheck.ts]: the regular expression that
    recognises a diagnostic line, the line loop of [runTool], the promise
    returned by [runTool], and the fan-out/fan-in of [check]. *)

From Stdlib Require Import ZArith NArith Ascii String DecimalString.
From stdpp Require Import base numbers list.

Local Open Scope N_scope.

(** ** JavaScript strings

    A JavaScript string is a sequence of UTF-16 code units.  Code units are
    kept as numbers, so that the four line terminators the regular
    expression engine knows about (LF, CR, U+2028, U+2029) are all present. *)

Abbreviation codeunit := N (only parsing).
Abbreviation jsstring := (list N) (only parsing).

(** [js "..."] is the JavaScript string with the given ASCII text. *)
Definition js (s : string) : jsstring :=
  map N_of_ascii (list_ascii_of_string s).

Definition TAB : codeunit := 9.
Definition LF : codeunit := 10.
Definition CR : codeunit := 13.
Definition SPACE : codeunit := 32.
Definition DQUOTE : codeunit := 34.
Definition DOT : codeunit := 46.
Definition SLASH : codeunit := 47.
Definition COLON : codeunit := 58.
Definition UNDERSCORE : codeunit := 95.
Definition LS : codeunit := 8232.
Definition PS : codeunit := 8233.

(** ** Regular expressions

    The fragment of ECMAScript regular expressions that the file uses:
    assertions [^] and [$] (no [m] flag), a character class, a class under
    one of the greedy quantifiers [?], [*], [+], capturing groups and
    concatenation.  Matching is the backtracking search of the language
    definition, written with continuations: a quantifier first tries the
    longest repetition and gives characters back one at a time while the
    rest of the pattern fails. *)

Module RegExp.

Inductive regex : Type :=
| Bol                               (* ^ *)
| Eol                               (* $ *)
| Chr (p : codeunit → bool)         (* one character of a class *)
| Opt (p : codeunit → bool)         (* class? *)
| Star (p : codeunit → bool)        (* class* *)
| Plus (p : codeunit → bool)        (* class+ *)
| Grp (r : regex)                   (* ( r ) *)
| Cat (r1 r2 : regex).

(** Character classes. *)
Definition exactly (c : codeunit) : codeunit → bool := N.eqb c.
Definition digit (c : codeunit) : bool := (48 <=? c) && (c <=? 57).
Definition word (c : codeunit) : bool :=
  ((97 <=? c) && (c <=? 122)) || ((65 <=? c) && (c <=? 90))
  || digit c || (c =? UNDERSCORE).
Definition line_terminator (c : codeunit) : bool :=
  (c =? LF) || (c =? CR) || (c =? LS) || (c =? PS).
Definition any (c : codeunit) : bool := negb (line_terminator c).
(** Under the [i] flag an ASCII letter matches both of its cases and
    nothing else. *)
Definition is_ci (lower : codeunit) (c : codeunit) : bool :=
  (c =? lower) || (c =? lower - 32).

Section Matcher.
Context {R : Type}.

(** [greedy p s i k]: consume as many characters of class [p] as there
    are, then call [k]; on failure retry with one character less. *)
Fixpoint greedy (p : codeunit → bool) (s : jsstring) (i : nat)
    (k : nat → jsstring → option R) : option R :=
  match s with
  | c :: s' =>
      if p c then
        match greedy p s' (S i) k with
        | Some r => Some r
        | None => k i s
        end
      else k i s
  | [] => k i s
  end.

(** [run r i s caps k]: match [r] against the input whose remaining
    part is [s], [i] code units from its start; [caps] are the captures
    of the groups closed so far, in order. *)
Fixpoint run (r : regex) (i : nat) (s : jsstring) (caps : list jsstring)
    (k : nat → jsstring → list jsstring → option R) : option R :=
  match r with
  | Bol => if decide (i = 0%nat) then k i s caps else None
  | Eol => match s with [] => k i s caps | _ :: _ => None end
  | Chr p =>
      match s with
      | c :: s' => if p c then k (S i) s' caps else None
      | [] => None
      end
  | Opt p =>
      match s with
      | c :: s' =>
          if p c then
            match k (S i) s' caps with
            | Some r => Some r
            | None => k i s caps
            end
          else k i s caps
      | [] => k i s caps
      end
  | Star p => greedy p s i (λ i' s', k i' s' caps)
  | Plus p =>
      match s with
      | c :: s' =>
          if p c then greedy p s' (S i) (λ i' s', k i' s' caps) else None
      | [] => None
      end
  | Grp r =>
      run r i s caps (λ i' s' caps', k i' s' (caps' ++ [take (i' - i) s]))
  | Cat r1 r2 =>
      run r1 i s caps (λ i' s' caps', run r2 i' s' caps' k)
  end.
End Matcher.

(** [exec] without the [g] flag: try every start position from the left;
    the result is the list of captures [match[1]], [match[2]], ... *)
Fixpoint exec_from (r : regex) (i : nat) (s : jsstring)
    : option (list jsstring) :=
  match run r i s [] (λ _ _ caps, Some caps) with
  | Some m => Some m
  | None =>
      match s with
      | _ :: s' => exec_from r (S i) s'
      | [] => None
      end
  end.

Definition exec (r : regex) (s : jsstring) : option (list jsstring) :=
  exec_from r 0 s.

(** The declarative reading of a pattern: [matches r i w s cs] when [r]
    can match the word [w] at position [i], in front of the remaining input
    [s], with [cs] the captures of its groups.  It says which matches
    exist, not which one the search takes first. *)
Fixpoint matches (r : regex) (i : nat) (w s : jsstring)
    (cs : list jsstring) : Prop :=
  match r with
  | Bol => i = 0%nat ∧ w = [] ∧ cs = []
  | Eol => s = [] ∧ w = [] ∧ cs = []
  | Chr p => (∃ c, p c = true ∧ w = [c]) ∧ cs = []
  | Opt p => (w = [] ∨ ∃ c, p c = true ∧ w = [c]) ∧ cs = []
  | Star p => forallb p w = true ∧ cs = []
  | Plus p => forallb p w = true ∧ w ≠ [] ∧ cs = []
  | Grp r => ∃ cs', matches r i w s cs' ∧ cs = cs' ++ [w]
  | Cat r1 r2 =>
      ∃ w1 w2 cs1 cs2, w = w1 ++ w2 ∧ cs = cs1 ++ cs2
        ∧ matches r1 i w1 (w2 ++ s) cs1
        ∧ matches r2 (i + length w1) w2 s cs2
  end.

(** The search commits to [w]: whenever the rest of the pattern succeeds
    after [r] has matched [w] in front of [s], adding the captures [cs],
    that is the match the search returns. *)
Definition commits (r : regex) (w s : jsstring) (cs : list jsstring) : Prop :=
  ∀ (R : Type) (i : nat) (caps : list jsstring)
    (k : nat → jsstring → list jsstring → option R) (x : R),
    k (i + length w)%nat s (caps ++ cs) = Some x →
    run r i (w ++ s) caps k = Some x.

(** The input [s] does not go on with a character of class [p]. *)
Definition stops (p : codeunit → bool) (s : jsstring) : Prop :=
  match s with
  | c :: _ => p c = false
  | [] => True
  end.

(** A pattern written as the sequence of its tokens. *)
Fixpoint cat (rs : list regex) : regex :=
  match rs with
  | [] => Star (λ _, false)
  | [r] => r
  | r :: rs' => Cat r (cat rs')
  end.

End RegExp.

Import RegExp.

(** The pattern of a diagnostic line, token by token:
    ^ ( [\w.\/]* ) : ( \d+ ) : ( \d? ) :* ( \w* ) :* SPACE ( .* ) $ *)
Definition path_char (c : codeunit) : bool :=
  word c || (c =? DOT) || (c =? SLASH).

Definition diagnostic_re : regex :=
  cat [ Bol; Grp (Star path_char); Chr (exactly COLON); Grp (Plus digit);
        Chr (exactly COLON); Grp (Opt digit); Star (exactly COLON); Grp (Star word);
        Star (exactly COLON); Chr (exactly SPACE); Grp (Star any); Eol ].

(** The pattern of a test file name, [_test.go$] under the [i] flag. *)
Definition test_file_re : regex :=
  cat [ Chr (exactly UNDERSCORE); Chr (is_ci 116); Chr (is_ci 101);
        Chr (is_ci 115); Chr (is_ci 116); Chr any; Chr (is_ci 103);
        Chr (is_ci 111); Eol ].

(** ** Numbers

    [+str] converts a string to a Number (a binary64 value).  The file
    applies it to captures of [\d+] and [\d?] only: a run of decimal digits
    denotes the double nearest to its decimal value (ties to even), the
    empty string denotes 0.  Every such value is an integer, so it is kept
    as one; decimal values from 2^1024 - 2^970 on become [Infinity]. *)

Inductive Number : Type :=
| Finite (z : Z)
| Infinity
| NaN.

Definition digit_value (c : codeunit) : Z := Z.of_N c - 48.

Definition decimal (s : jsstring) : Z :=
  fold_left (λ acc c, 10 * acc + digit_value c)%Z s 0%Z.

Definition round_binary64 (n : Z) : Number :=
  if (n <? 2 ^ 53)%Z then Finite n
  else
    let sh := (Z.log2 n - 52)%Z in
    let q := Z.shiftr n sh in
    let r := Z.land n (Z.ones sh) in
    let half := Z.shiftl 1 (sh - 1) in
    let q' := if (half <? r)%Z || ((r =? half)%Z && Z.odd q)
              then (q + 1)%Z else q in
    let v := Z.shiftl q' sh in
    if (2 ^ 1024 <=? v)%Z then Infinity else Finite v.

Definition ToNumber (s : jsstring) : Number :=
  if forallb digit s then round_binary64 (decimal s) else NaN.

(** ** [String.prototype] helpers and Node's [path] module

    [path.basename] and [path.resolve] follow Node's POSIX implementation:
    [basename] ignores trailing slashes and returns what follows the last
    slash left; [resolve] takes its arguments from the right until it has
    an absolute path, falling back on the working directory of the
    process, then removes [.] and empty parts and lets [..] cancel the
    part before it. *)

(** [s.split(sep)] for a separator of one code unit. *)
Fixpoint split (sep : codeunit) (s : jsstring) : list jsstring :=
  match s with
  | [] => [[]]
  | c :: s' =>
      if c =? sep then [] :: split sep s'
      else match split sep s' with
           | w :: ws => (c :: w) :: ws
           | [] => [[c]]
           end
  end.

(** [parts.join(sep)] *)
Fixpoint join (sep : jsstring) (parts : list jsstring) : jsstring :=
  match parts with
  | [] => []
  | [x] => x
  | x :: parts' => x ++ sep ++ join sep parts'
  end.

Module path.

Definition isAbsolute (p : jsstring) : bool :=
  bool_decide (p !! 0%nat = Some SLASH).

Fixpoint drop_slashes (p : jsstring) : jsstring :=
  match p with
  | c :: p' => if c =? SLASH then drop_slashes p' else p
  | [] => []
  end.

(** [path.basename(p)]: trailing slashes are ignored and what follows the
    last remaining slash is returned. *)
Definition basename (p : jsstring) : jsstring :=
  let p' := reverse (drop_slashes (reverse p)) in
  default [] (last (split SLASH p')).

(** The parts of a path with [.] removed and [..] cancelling the part
    before it. *)
Fixpoint normalizeArray (parts res : list jsstring) (allowAboveRoot : bool)
    : list jsstring :=
  match parts with
  | [] => res
  | p :: parts' =>
      if bool_decide (p = []) || bool_decide (p = [DOT]) then
        normalizeArray parts' res allowAboveRoot
      else if bool_decide (p = [DOT; DOT]) then
        match last res with
        | Some top =>
            if bool_decide (top = [DOT; DOT]) then
              normalizeArray parts'
                (if allowAboveRoot then res ++ [p] else res) allowAboveRoot
            else normalizeArray parts' (removelast res) allowAboveRoot
        | None =>
            normalizeArray parts'
              (if allowAboveRoot then res ++ [p] else res) allowAboveRoot
        end
      else normalizeArray parts' (res ++ [p]) allowAboveRoot
  end.

(** The loop of [path.resolve]: arguments are taken from the right, the
    process's working directory last, until an absolute one is met. *)
Fixpoint resolve_loop (args : list jsstring) (resolvedPath : jsstring)
    : jsstring * bool :=
  match args with
  | [] => (resolvedPath, false)
  | p :: args' =>
      if bool_decide (p = []) then resolve_loop args' resolvedPath
      else
        let resolvedPath' := p ++ SLASH :: resolvedPath in
        if isAbsolute p then (resolvedPath', true)
        else resolve_loop args' resolvedPath'
  end.

Definition resolve (process_cwd : jsstring) (args : list jsstring)
    : jsstring :=
  let '(resolvedPath, resolvedAbsolute) :=
    resolve_loop (reverse args ++ [process_cwd]) [] in
  let parts :=
    normalizeArray (split SLASH resolvedPath) [] (negb resolvedAbsolute) in
  let r := join [SLASH] parts in
  if resolvedAbsolute then SLASH :: r
  else if bool_decide (r = []) then [DOT] else r.

End path.

(** A name that [path.resolve] keeps as it is: not empty, not [.], not
    [..], and without a slash. *)
Definition plain_name (b : jsstring) : Prop :=
  b ≠ [] ∧ b ≠ [DOT] ∧ b ≠ [DOT; DOT] ∧ SLASH ∉ b.

(** The absolute path made of the given directory names: [/] for none,
    [/a/b] for [a] and [b]. *)
Definition absolute_path (dirs : list jsstring) : jsstring :=
  SLASH :: join [SLASH] dirs.

(** ** Diagnostics *)

Record ICheckResult : Type := mkICheckResult {
  file : jsstring;
  line : Number;
  char : Number;
  msg : jsstring;
  severity : jsstring;
}.

(** [d.msg += extra] *)
Definition append_msg (extra : jsstring) (d : ICheckResult) : ICheckResult :=
  {| file := file d; line := line d; char := char d;
     msg := msg d ++ extra; severity := severity d |}.

(** What [execFile] hands to its callback. *)
Inductive ExecError : Type :=
| Errno (code : jsstring)      (* the process could not be spawned *)
| ExitStatus (code : Z).       (* the tool ran and exited with this status *)

Record ExecOutcome : Type := mkExecOutcome {
  err : option ExecError;
  stdout : jsstring;
  stderr : jsstring;
}.

(** [err && err.code === 'ENOENT'] *)
Definition isENOENT (r : ExecOutcome) : bool :=
  match err r with
  | Some (Errno code) => bool_decide (code = js "ENOENT")
  | _ => false
  end.

(** An exception value, represented by its message. *)
Abbreviation exn := (list N) (only parsing).

(** A settled promise of a diagnostic list. *)
Inductive Settled : Type :=
| Resolved (v : list ICheckResult)
| Rejected (e : exn).

(** The configuration object; a flag is the truthiness of the option's
    value, [None] is an option that is not set. *)
Record GoConfig : Type := mkGoConfig {
  buildOnSave : bool;
  buildFlags : option (list jsstring);
  buildTags : option jsstring;
  lintOnSave : bool;
  linter : option jsstring;
  lintFlags : option (list jsstring);
  vetOnSave : bool;
  vetFlags : option (list jsstring);
  coverOnSave : bool;
}.

(** String concatenation with a value that may be [undefined]. *)
Definition String_ (v : option jsstring) : jsstring :=
  default (js "undefined") v.

(** ** A host for the examples

    One concrete set of collaborators: a log sink that keeps the lines it
    is given, a second one that has been closed and throws, tools that
    print fixed outputs, and a linter that is not installed. *)

Module Demo.

Definition process_cwd : jsstring := js "/home/dev".

(** The decimal digits of an integer: what [Number.prototype.toString]
    gives for the integers below 2^53 (above, JavaScript prints the
    shortest digits that read back as the same double). *)
Definition NumberToString (n : Number) : jsstring :=
  match n with
  | Finite z => js (NilZero.string_of_int (Z.to_int z))
  | Infinity => js "Infinity"
  | NaN => js "NaN"
  end.

Definition appendLine (l : jsstring) (s : list jsstring)
    : option exn * list jsstring :=
  (None, s ++ [l]).

Definition appendLine_closed (l : jsstring) (s : list jsstring)
    : option exn * list jsstring :=
  (Some (js "Channel has been closed"), s).

Definition clear (s : list jsstring) : list jsstring := [].

Definition build_output : jsstring :=
  js "main.go:10:0: undeclared name: foo" ++ [LF; TAB]
  ++ js "see also bar.go:3" ++ [LF].

Definition vet_output : jsstring :=
  js "vet: checking main.go" ++ [LF] ++ js "main.go:3: unreachable code"
  ++ [LF].

Definition execFile (cmd : jsstring) (args : list jsstring) (cwd : jsstring)
    : ExecOutcome :=
  if bool_decide (cmd = js "golint") then
    {| err := Some (Errno (js "ENOENT")); stdout := []; stderr := [] |}
  else if bool_decide (args !! 0%nat = Some (js "tool")) then
    {| err := Some (ExitStatus 1); stdout := []; stderr := vet_output |}
  else
    {| err := Some (ExitStatus 2); stdout := []; stderr := build_output |}.

Definition uncovered : ICheckResult :=
  {| file := js "/proj/main.go"; line := Finite 7; char := Finite 1;
     msg := js "not covered"; severity := js "info" |}.

Definition getCoverage (filename : jsstring) : Settled :=
  Resolved [uncovered].

Definition getBinPath (tool : jsstring) : jsstring := tool.

Definition getGoRuntimePath : jsstring := js "/usr/local/go/bin/go".

(** [path.dirname] on a path without doubled or trailing slashes: [.] for
    a bare name, [/] for a name under the root. *)
Definition dirname (p : jsstring) : jsstring :=
  match removelast (split SLASH p) with
  | [] => [DOT]
  | [ [] ] => [SLASH]
  | parts => join [SLASH] parts
  end.

Definition tmppath : jsstring := js "/tmp/go-code-check".

Definition GOROOT : option jsstring := Some (js "/usr/local/go").

Definition filename : jsstring := js "/proj/main.go".

(** Every check enabled, with the default linter. *)
Definition goConfig : GoConfig :=
  {| buildOnSave := true; buildFlags := None; buildTags := Some [];
     lintOnSave := true; linter := None; lintFlags := None;
     vetOnSave := true; vetFlags := None; coverOnSave := true |}.

Definition undeclared : ICheckResult :=
  {| file := js "/proj/main.go"; line := Finite 10; char := Finite 1;
     msg := js "undeclared name: foo" ++ [LF; TAB] ++ js "see also bar.go:3";
     severity := js "error" |}.

Definition unreachable : ICheckResult :=
  {| file := js "/proj/main.go"; line := Finite 3; char := Finite 1;
     msg := js "unreachable code"; severity := js "warning" |}.

End Demo.

Section GoCheck.

(** *** The host

    What the file obtains from its imports and from the process.  The log
    sink is the output channel ['Go']: [appendLine l s] is the sink after
    the call, together with the exception when the call throws; [clear] is
    called outside any handler and is taken to succeed.
    [showInformationMessage] hands back a promise and so has no synchronous
    failure: the notifier is modelled by the list of messages it was
    given.  [execFile] is the outcome of the process for a command line,
    [getCoverage] the settled promise of the coverage collector;
    [process_cwd] is [process.cwd()], [tmppath] the normalised temporary
    output path, [GOROOT] the environment variable of that name. *)
Variable process_cwd : jsstring.
Variable NumberToString : Number → jsstring.
Variable Sink : Type.
Variable appendLine : jsstring → Sink → option exn * Sink.
Variable clear : Sink → Sink.
Variable execFile : jsstring → list jsstring → jsstring → ExecOutcome.
Variable getCoverage : jsstring → Settled.
Variable getBinPath : jsstring → jsstring.
Variable getGoRuntimePath : jsstring.
Variable dirname : jsstring → jsstring.
Variable tmppath : jsstring.
Variable GOROOT : option jsstring.

Record World : Type := mkWorld {
  sink : Sink;
  notifications : list jsstring;
}.

Definition showInformationMessage (m : jsstring) (w : World) : World :=
  {| sink := sink w; notifications := notifications w ++ [m] |}.

(** Replaying a run of [appendLine] calls against the sink; the first
    exception ends the run. *)
Fixpoint appendLines (out : list jsstring) (s : Sink) : option exn * Sink :=
  match out with
  | [] => (None, s)
  | l :: out' =>
      match appendLine l s with
      | (None, s') => appendLines out' s'
      | (Some e, s') => (Some e, s')
      end
  end.

(** *** [runTool]

    The state of the line loop is [ret] together with the lines handed to
    [outputChannel.appendLine] so far.  The body never reads the channel,
    so the calls are collected in order and replayed against the sink by
    [runTool] below: a call that throws leaves the [try] block, what would
    have been written after it is not, and [ret] is lost. *)
Definition loopBody (cwd severity_ : jsstring)
    (st : list ICheckResult * list jsstring) (l : jsstring)
    : list ICheckResult * list jsstring :=
  let '(ret, out) := st in
  if bool_decide (l !! 0%nat = Some TAB) && bool_decide (0 < length ret)%nat
  then (alter (append_msg (LF :: l)) (length ret - 1)%nat ret, out)
  else
    match exec diagnostic_re l with
    | Some [file_; lineStr; charStr; reSeverity; msg_] =>
        let line_ := ToNumber lineStr in
        let char_ := ToNumber charStr in
        let char_ := match char_ with Finite 0 => Finite 1 | _ => char_ end in
        let file_ := path.resolve process_cwd [cwd; path.basename file_] in
        let lineSeverity :=
          if bool_decide (reSeverity ≠ []) then reSeverity else severity_ in
        (ret ++ [ {| file := file_; line := line_; msg := msg_;
                     char := char_; severity := lineSeverity |} ],
         out ++ [ file_ ++ js ":" ++ NumberToString line_ ++ js ":"
                  ++ NumberToString char_ ++ js ": " ++ msg_ ])
    | _ => st
    end.

(** The [try] block once the tool has run: the diagnostics and the lines
    written to the output channel. *)
Definition parseOutput (cmd : jsstring) (args : list jsstring)
    (cwd severity_ : jsstring) (useStdErr : bool) (r : ExecOutcome)
    : list ICheckResult * list jsstring :=
  let lines := split LF (if useStdErr then stderr r else stdout r) in
  let header := join [SPACE] (js "Finished running tool:" :: cmd :: args) in
  let '(ret, out) := fold_left (loopBody cwd severity_) lines ([], [header]) in
  (ret, out ++ [[]]).

(** The promise of [runTool], settled by the callback of [execFile]. *)
Definition runTool (cmd : jsstring) (args : list jsstring)
    (cwd severity_ : jsstring) (useStdErr : bool) (notFoundError : jsstring)
    (w : World) : Settled * World :=
  let r := execFile cmd args cwd in
  if isENOENT r then (Resolved [], showInformationMessage notFoundError w)
  else
    let '(ret, out) := parseOutput cmd args cwd severity_ useStdErr r in
    match appendLines out (sink w) with
    | (None, s) =>
        (Resolved ret, {| sink := s; notifications := notifications w |})
    | (Some e, s) =>
        (Rejected e, {| sink := s; notifications := notifications w |})
    end.

(** *** [check]

    An operation that [check] has started and whose promise is pending:
    a tool under [runTool], or the coverage collector. *)
Inductive Running : Type :=
| Tool (cmd : jsstring) (args : list jsstring) (cwd severity_ : jsstring)
    (useStdErr : bool) (notFoundError : jsstring)
| Cover (filename : jsstring).

(** The operations started by [check], in the order in which their
    promises are pushed on [runningToolsPromises].  ([args.push(filename)]
    also extends the configured [lintFlags] array when there is one; the
    configuration is not read again within the call.) *)
Definition buildCheck (filename : jsstring) (cfg : GoConfig) : Running :=
  let cwd := dirname filename in
  let buildFlags_ := default [] (buildFlags cfg) in
  let buildTags_ := DQUOTE :: String_ (buildTags cfg) ++ [DQUOTE] in
  let args :=
    match exec test_file_re filename with
    | Some _ =>
        [js "test"; js "-copybinary"; js "-o"; tmppath; js "-c"; js "-tags";
         buildTags_] ++ buildFlags_ ++ [js "."]
    | None =>
        [js "build"; js "-o"; tmppath; js "-tags"; buildTags_]
        ++ buildFlags_ ++ [js "."]
    end in
  Tool getGoRuntimePath args cwd (js "error") true
    (js "No " ++ [DQUOTE] ++ js "go" ++ [DQUOTE]
     ++ js " binary could be found in GOROOT: " ++ String_ GOROOT
     ++ [DQUOTE]).

Definition lintCheck (filename : jsstring) (cfg : GoConfig) : Running :=
  let cwd := dirname filename in
  let linter_ :=
    match linter cfg with
    | Some (c :: l) => c :: l
    | _ => js "golint"
    end in
  let golint := getBinPath linter_ in
  let args := default [] (lintFlags cfg) in
  let args :=
    if bool_decide (linter_ = js "golint") then args ++ [filename]
    else args in
  Tool golint args cwd (js "warning") false
    (js "The '" ++ linter_
     ++ js "' command is not available.  Please install it.").

Definition vetCheck (filename : jsstring) (cfg : GoConfig) : Running :=
  let cwd := dirname filename in
  let vetFlags_ := default [] (vetFlags cfg) in
  Tool getGoRuntimePath ([js "tool"; js "vet"] ++ vetFlags_ ++ [filename])
    cwd (js "warning") true
    (js "No " ++ [DQUOTE] ++ js "go" ++ [DQUOTE]
     ++ js " binary could be found in GOROOT: " ++ [DQUOTE]
     ++ String_ GOROOT ++ [DQUOTE]).

Definition runningToolsPromises (filename : jsstring) (cfg : GoConfig)
    : list Running :=
  (if buildOnSave cfg then [buildCheck filename cfg] else [])
  ++ (if lintOnSave cfg then [lintCheck filename cfg] else [])
  ++ (if vetOnSave cfg then [vetCheck filename cfg] else [])
  ++ (if coverOnSave cfg then [Cover filename] else []).

(** A started operation completes: its promise settles. *)
Definition settle (t : Running) (w : World) : Settled * World :=
  match t with
  | Tool cmd args cwd severity_ useStdErr notFoundError =>
      runTool cmd args cwd severity_ useStdErr notFoundError w
  | Cover filename => (getCoverage filename, w)
  end.

(** [Promise.all]: element [i] of [values] is written when promise [i] is
    fulfilled; the combined promise is fulfilled with [values] when the
    count of outstanding promises reaches 0 and is rejected by the first
    rejection.  A settled promise does not change. *)
Inductive Promise (A : Type) : Type :=
| Pending
| Fulfilled (v : A)
| Failed (e : exn).
#[global] Arguments Pending {A}.
#[global] Arguments Fulfilled {A} v.
#[global] Arguments Failed {A} e.

Record AllState : Type := mkAllState {
  values : list (option (list ICheckResult));
  remaining : nat;
  promise : Promise (list (list ICheckResult));
}.

Definition all_init (n : nat) : AllState :=
  {| values := replicate n None; remaining := n;
     promise := match n with O => Fulfilled [] | S _ => Pending end |}.

Definition all_settle (i : nat) (r : Settled) (st : AllState) : AllState :=
  match r with
  | Resolved v =>
      let values' := <[i := Some v]> (values st) in
      let remaining' := (remaining st - 1)%nat in
      {| values := values'; remaining := remaining';
         promise :=
           match promise st with
           | Pending =>
               if decide (remaining' = 0%nat)
               then Fulfilled (omap id values') else Pending
           | p => p
           end |}
  | Rejected e =>
      {| values := values st; remaining := remaining st;
         promise :=
           match promise st with
           | Pending => Failed e
           | p => p
           end |}
  end.

(** The started operations complete in the order [order] (positions in
    [runningToolsPromises]); each completion runs to its end before the
    next one is taken up. *)
Fixpoint complete (running : list Running) (order : list nat)
    (st : AllState) (w : World) : AllState * World :=
  match order with
  | [] => (st, w)
  | i :: order' =>
      match running !! i with
      | Some t =>
          let '(r, w') := settle t w in
          complete running order' (all_settle i r st) w'
      | None => complete running order' st w
      end
  end.

(** [resultSets => [].concat.apply([], resultSets)] *)
Definition flatten (p : Promise (list (list ICheckResult)))
    : Promise (list ICheckResult) :=
  match p with
  | Fulfilled resultSets => Fulfilled (concat resultSets)
  | Failed e => Failed e
  | Pending => Pending
  end.

(** [check]: the log sink is cleared, the enabled checks are started, and
    the promise returned is that of [Promise.all] passed through the
    concatenation; it is read here once the started operations have
    completed in the order [order]. *)
Definition check (filename : jsstring) (cfg : GoConfig) (order : list nat)
    (w : World) : Promise (list ICheckResult) * World :=
  let w0 := {| sink := clear (sink w); notifications := notifications w |} in
  let running := runningToolsPromises filename cfg in
  let '(st, w') := complete running order (all_init (length running)) w0 in
  (flatten (promise st), w').

(** *** Properties of diagnostics, used in the statements below *)

(** What holds of every diagnostic [runTool] produces: a column from 1 to
    9, a line number that is not negative, a file that is an absolute
    path. *)
Definition positioned (d : ICheckResult) : Prop :=
  (∃ z, char d = Finite z ∧ (1 ≤ z ≤ 9)%Z)
  ∧ (line d = Infinity ∨ ∃ z, line d = Finite z ∧ (0 ≤ z)%Z)
  ∧ path.isAbsolute (file d) = true.

(** [d] is [d0] with, possibly, more text at the end of its message. *)
Definition continued (d0 d : ICheckResult) : Prop :=
  file d = file d0 ∧ line d = line d0 ∧ char d = char d0
  ∧ severity d = severity d0 ∧ ∃ extra, msg d = msg d0 ++ extra.

(** The longest prefix of [s] whose code units satisfy [p], and what
    follows it. *)
Fixpoint take_while (p : codeunit → bool) (s : jsstring) : jsstring :=
  match s with
  | c :: s' => if p c then c :: take_while p s' else []
  | [] => []
  end.

Fixpoint drop_while (p : codeunit → bool) (s : jsstring) : jsstring :=
  match s with
  | c :: s' => if p c then drop_while p s' else s
  | [] => []
  end.

(** The severity word of a line, read off what follows its second colon
    without any search: one digit is passed over if the text begins with
    one, then the colons that follow, and the word is the run of word
    characters found there. *)
Definition severity_word (rest : jsstring) : jsstring :=
  let rest' :=
    match rest with
    | dg :: r => if digit dg then r else rest
    | [] => []
    end in
  take_while word (drop_while (exactly COLON) rest').

(** The diagnostics a started operation hands over when its promise is
    fulfilled. *)
Definition contribution (t : Running) : list ICheckResult :=
  match t with
  | Tool cmd args cwd severity_ useStdErr _ =>
      let r := execFile cmd args cwd in
      if isENOENT r then []
      else (parseOutput cmd args cwd severity_ useStdErr r).1
  | Cover filename =>
      match getCoverage filename with
      | Resolved v => v
      | Rejected _ => []
      end
  end.

(** The state of [Promise.all] while the operations listed in [order]
    are still to complete and the others have resolved with their entries
    of [vs]. *)
Definition fan_in (n : nat) (vs : list (list ICheckResult))
    (order : list nat) (st : AllState) : Prop :=
  remaining st = length order
  ∧ length (values st) = n
  ∧ (∀ i v, vs !! i = Some v →
       values st !! i
       = Some (if bool_decide (i ∈ order) then None else Some v))
  ∧ promise st = match order with [] => Fulfilled vs | _ :: _ => Pending end.

(** ** The regular expression search *)

Lemma greedy_sound {R} p s i (k : nat → jsstring → option R) x :
  greedy p s i k = Some x →
  ∃ w s', s = w ++ s' ∧ forallb p w = true ∧ k (i + length w)%nat s' = Some x.
Proof.
  revert i. induction s as [|c s IH]; intros i H; simpl in H.
  - exists [], []. rewrite Nat.add_0_r. auto.
  - destruct (p c) eqn:Hc.
    + destruct (greedy p s (S i) k) eqn:Hg.
      * injection H as ->. destruct (IH _ Hg) as (w & s' & -> & Hw & Hk).
        exists (c :: w), s'. simpl. rewrite Hc, Hw.
        rewrite <- Nat.add_succ_comm. auto.
      * exists [], (c :: s). rewrite Nat.add_0_r. auto.
    + exists [], (c :: s). rewrite Nat.add_0_r. auto.
Qed.

(** Whatever the search returns is a match in the declarative sense. *)
Lemma run_sound {R} r :
  ∀ i s0 caps (k : nat → jsstring → list jsstring → option R) x,
  run r i s0 caps k = Some x →
  ∃ w s cs, s0 = w ++ s ∧ matches r i w s cs
    ∧ k (i + length w)%nat s (caps ++ cs) = Some x.
Proof.
  induction r as [| |p|p|p|p|r IH|r1 IH1 r2 IH2];
    intros i s0 caps k x H; cbn [run] in H.
  - destruct (decide (i = 0%nat)) as [->|]; [|done].
    exists [], s0, []. by rewrite app_nil_r.
  - destruct s0; [|done]. exists [], [], []. cbn.
    by rewrite app_nil_r, Nat.add_0_r.
  - destruct s0 as [|c s]; [done|]. destruct (p c) eqn:Hc; [|done].
    exists [c], s, []. cbn. rewrite app_nil_r, Nat.add_1_r. eauto 6.
  - assert (Hnone : k i s0 caps = Some x →
      ∃ w s cs, s0 = w ++ s ∧ matches (Opt p) i w s cs
        ∧ k (i + length w)%nat s (caps ++ cs) = Some x).
    { intros Hk. exists [], s0, []. cbn. rewrite app_nil_r, Nat.add_0_r.
      auto. }
    destruct s0 as [|c s]; [auto|]. destruct (p c) eqn:Hc; [|auto].
    destruct (k (S i) s caps) eqn:Hk; [|auto]. injection H as ->.
    exists [c], s, []. cbn. rewrite app_nil_r, Nat.add_1_r. eauto 8.
  - apply greedy_sound in H as (w & s & -> & Hw & Hk).
    exists w, s, []. by rewrite app_nil_r.
  - destruct s0 as [|c s0]; [done|]. destruct (p c) eqn:Hc; [|done].
    apply greedy_sound in H as (w & s & -> & Hw & Hk).
    exists (c :: w), s, []. rewrite app_nil_r. cbn.
    rewrite Hc, Hw, Nat.add_succ_r. done.
  - apply IH in H as (w & s & cs & -> & Hm & Hk).
    exists w, s, (cs ++ [w]). split; [done|]. split; [cbn; eauto|].
    replace (i + length w - i)%nat with (length w) in Hk by lia.
    by rewrite take_app_length, <- app_assoc in Hk.
  - apply IH1 in H as (w1 & s1 & cs1 & -> & Hm1 & H).
    apply IH2 in H as (w2 & s & cs2 & -> & Hm2 & H).
    exists (w1 ++ w2), s, (cs1 ++ cs2).
    rewrite <- !app_assoc, length_app, Nat.add_assoc.
    split; [done|]. split; [|by rewrite app_assoc]. cbn. eauto 10.
Qed.

Lemma exec_from_eq r i s :
  exec_from r i s =
  match run r i s [] (λ _ _ caps, Some caps) with
  | Some m => Some m
  | None => match s with _ :: s' => exec_from r (S i) s' | [] => None end
  end.
Proof. by destruct s. Qed.

Lemma exec_from_sound r s : ∀ i caps,
  exec_from r i s = Some caps →
  ∃ n w s', drop n s = w ++ s' ∧ matches r (i + n) w s' caps.
Proof.
  induction s as [|c s IH]; intros i caps H; rewrite exec_from_eq in H.
  - destruct (run r i [] [] _) eqn:Hr; [|done]. injection H as ->.
    apply run_sound in Hr as (w & s' & cs & Hs & Hm & [= <-]).
    exists 0%nat, w, s'. by rewrite Nat.add_0_r.
  - destruct (run r i (c :: s) [] _) eqn:Hr.
    + injection H as ->.
      apply run_sound in Hr as (w & s' & cs & Hs & Hm & [= <-]).
      exists 0%nat, w, s'. by rewrite Nat.add_0_r.
    + apply IH in H as (n & w & s' & Hs & Hm).
      exists (S n), w, s'. by rewrite <- Nat.add_succ_comm.
Qed.

(** A pattern that starts with [^] matches at the start or nowhere. *)
Lemma exec_from_Bol_later r s : ∀ i,
  i ≠ 0%nat → exec_from (Cat Bol r) i s = None.
Proof.
  induction s as [|c s IH]; intros i Hi; rewrite exec_from_eq; cbn [run];
    destruct (decide (i = 0%nat)); try done.
  by apply IH.
Qed.

Lemma exec_Bol r s :
  exec (Cat Bol r) s = run r 0 s [] (λ _ _ caps, Some caps).
Proof.
  unfold exec. rewrite exec_from_eq. cbn [run].
  destruct (decide (0 = 0)%nat); [|done].
  destruct (run r 0 s [] _); [done|].
  destruct s; [done|]. by apply exec_from_Bol_later.
Qed.

Lemma greedy_max {R} p w s i (k : nat → jsstring → option R) x :
  forallb p w = true → stops p s →
  k (i + length w)%nat s = Some x → greedy p (w ++ s) i k = Some x.
Proof.
  revert i. induction w as [|c w IH]; intros i Hw Hs Hk; cbn in *.
  - rewrite Nat.add_0_r in Hk. destruct s as [|c s]; [done|].
    cbn in *. by rewrite Hs.
  - apply andb_prop in Hw as [Hc Hw]. rewrite Hc.
    rewrite (IH (S i)); [done..|]. by rewrite Nat.add_succ_comm.
Qed.

Lemma commits_Chr p c s : p c = true → commits (Chr p) [c] s [].
Proof.
  intros Hc R i caps k x Hk. cbn. rewrite Hc.
  by rewrite app_nil_r, Nat.add_1_r in Hk.
Qed.

Lemma commits_Star p w s :
  forallb p w = true → stops p s → commits (Star p) w s [].
Proof.
  intros Hw Hs R i caps k x Hk. cbn [run]. rewrite app_nil_r in Hk.
  by apply greedy_max.
Qed.

Lemma commits_Plus p c w s :
  p c = true → forallb p w = true → stops p s →
  commits (Plus p) (c :: w) s [].
Proof.
  intros Hc Hw Hs R i caps k x Hk. cbn [run app]. rewrite Hc.
  rewrite app_nil_r in Hk. apply greedy_max; [done..|].
  cbn in Hk. by rewrite Nat.add_succ_comm.
Qed.

Lemma commits_Opt_one p c s : p c = true → commits (Opt p) [c] s [].
Proof.
  intros Hc R i caps k x Hk. cbn. rewrite Hc.
  rewrite app_nil_r, Nat.add_1_r in Hk. by rewrite Hk.
Qed.

Lemma commits_Opt_none p s : stops p s → commits (Opt p) [] s [].
Proof.
  intros Hs R i caps k x Hk. cbn.
  rewrite app_nil_r, Nat.add_0_r in Hk.
  destruct s as [|c s]; [done|]. cbn in Hs. by rewrite Hs.
Qed.

Lemma commits_Eol : commits Eol [] [] [].
Proof.
  intros R i caps k x Hk. cbn. by rewrite app_nil_r, Nat.add_0_r in Hk.
Qed.

Lemma commits_Grp r w s cs : commits r w s cs → commits (Grp r) w s (cs ++ [w]).
Proof.
  intros Hr R i caps k x Hk. cbn [run]. apply Hr.
  replace (i + length w - i)%nat with (length w) by lia.
  by rewrite take_app_length, <- app_assoc.
Qed.

Lemma commits_Cat r1 r2 w1 w2 s cs1 cs2 :
  commits r1 w1 (w2 ++ s) cs1 → commits r2 w2 s cs2 →
  commits (Cat r1 r2) (w1 ++ w2) s (cs1 ++ cs2).
Proof.
  intros H1 H2 R i caps k x Hk. cbn [run]. rewrite <- app_assoc.
  apply H1, H2. by rewrite <- Nat.add_assoc, <- length_app, <- app_assoc.
Qed.

Lemma exec_commits r w cs :
  commits r w [] cs → exec (Cat Bol r) w = Some cs.
Proof.
  intros Hr. rewrite exec_Bol. rewrite <- (app_nil_r w) at 1.
  by apply Hr.
Qed.

Lemma exactly_true c d : exactly c d = true → d = c.
Proof. unfold exactly. intros H. by apply N.eqb_eq in H. Qed.

(** Every line the pattern accepts has the shape
    path : digits : at most one digit, colons, word, colons, blank, rest. *)
Lemma exec_diagnostic_re_inv l caps :
  exec diagnostic_re l = Some caps →
  ∃ p ln c k1 sev k2 m,
    caps = [p; ln; c; sev; m]
    ∧ l = p ++ COLON :: ln ++ COLON :: c ++ k1 ++ sev ++ k2 ++ SPACE :: m
    ∧ forallb path_char p = true
    ∧ forallb digit ln = true ∧ ln ≠ []
    ∧ forallb digit c = true ∧ (length c ≤ 1)%nat
    ∧ forallb (exactly COLON) k1 = true
    ∧ forallb word sev = true
    ∧ forallb (exactly COLON) k2 = true
    ∧ forallb any m = true.
Proof.
  intros H. apply exec_from_sound in H as (n & w & s' & Hl & Hm).
  cbv [diagnostic_re cat] in Hm. cbn [matches] in Hm.
  repeat match goal with
  | H : ∃ _, _ |- _ => destruct H as [? H]
  | H : _ ∧ _ |- _ => destruct H as [? ?]
  | H : exactly _ _ = true |- _ => apply exactly_true in H
  end; subst.
  match goal with H : (0 + n)%nat = 0%nat |- _ =>
    cbn in H; subst n end.
  rewrite drop_0 in Hl. cbn [app] in Hl. rewrite !app_nil_r in Hl. subst l.
  cbn [app]. do 7 eexists. split; [reflexivity|].
  split; [reflexivity|].
  repeat split; try done.
  - match goal with H : _ ∨ _ |- _ =>
      destruct H as [->|(c & Hc & ->)]; cbn; [done|by rewrite Hc] end.
  - match goal with H : _ ∨ _ |- _ =>
      destruct H as [->|(c & Hc & ->)]; cbn; lia end.
Qed.

Lemma commits_Cat' r1 r2 w w1 w2 s cs cs1 cs2 :
  w = w1 ++ w2 →
  commits r1 w1 (w2 ++ s) cs1 → commits r2 w2 s cs2 →
  cs = cs1 ++ cs2 →
  commits (Cat r1 r2) w s cs.
Proof. intros -> H1 H2 ->. by apply commits_Cat. Qed.

Lemma word_not_COLON a : word a = true → exactly COLON a = false.
Proof.
  unfold exactly. intros Ha. apply N.eqb_neq. by intros <-.
Qed.

(** A line of the shape [path:line:col:sev: msg], with at most one column
    digit and no line terminator in the message, is accepted, and the
    five captures are its five fields. *)
Lemma exec_diagnostic_re_line p ln c sev m :
  forallb path_char p = true →
  forallb digit ln = true → ln ≠ [] →
  forallb digit c = true → (length c ≤ 1)%nat →
  forallb word sev = true →
  forallb any m = true →
  exec diagnostic_re
    (p ++ COLON :: ln ++ COLON :: c ++ COLON :: sev ++ COLON :: SPACE :: m)
  = Some [p; ln; c; sev; m].
Proof.
  intros Hp Hln Hne Hc Hlen Hsev Hm.
  cbv [diagnostic_re cat]. apply exec_commits.
  destruct ln as [|d ln]; [done|]. cbn in Hln. apply andb_prop in Hln as [Hd Hln].
  eapply (commits_Cat' _ _ _ p); [reflexivity| | |].
  { apply commits_Grp, commits_Star; done. }
  2: reflexivity.
  eapply (commits_Cat' _ _ _ [COLON]); [reflexivity| | |].
  { by apply commits_Chr. }
  2: reflexivity.
  eapply (commits_Cat' _ _ _ (d :: ln)); [reflexivity| | |].
  { apply commits_Grp, commits_Plus; done. }
  2: reflexivity.
  eapply (commits_Cat' _ _ _ [COLON]); [reflexivity| | |].
  { by apply commits_Chr. }
  2: reflexivity.
  eapply (commits_Cat' _ _ _ c); [reflexivity| | |].
  { apply commits_Grp.
    destruct c as [|c1 [|]]; [| |cbn in Hlen; lia].
    - by apply commits_Opt_none.
    - apply commits_Opt_one. cbn in Hc. by destruct (digit c1). }
  2: reflexivity.
  assert (Htail : commits
    (Cat (Chr (exactly SPACE)) (Cat (Grp (Star any)) Eol)) (SPACE :: m) [] [m]).
  { eapply (commits_Cat' _ _ _ [SPACE]); [reflexivity| | |].
    { by apply commits_Chr. }
    2: reflexivity.
    eapply (commits_Cat' _ _ _ m []); [by rewrite app_nil_r| | |].
    { apply commits_Grp, commits_Star; done. }
    { apply commits_Eol. }
    reflexivity. }
  destruct sev as [|a sev].
  - eapply (commits_Cat' _ _ _ [COLON; COLON]); [reflexivity| | |].
    { by apply commits_Star. }
    2: reflexivity.
    eapply (commits_Cat' _ _ _ []); [reflexivity| | |].
    { apply commits_Grp, commits_Star; done. }
    2: reflexivity.
    eapply (commits_Cat' _ _ _ []); [reflexivity| | |].
    { by apply commits_Star. }
    2: reflexivity.
    exact Htail.
  - cbn in Hsev. apply andb_prop in Hsev as [Ha Hsev].
    eapply (commits_Cat' _ _ _ [COLON]); [reflexivity| | |].
    { apply commits_Star; [done|]. by apply word_not_COLON. }
    2: reflexivity.
    eapply (commits_Cat' _ _ _ (a :: sev)); [reflexivity| | |].
    { apply commits_Grp, commits_Star; [|done]. cbn. by rewrite Ha. }
    2: reflexivity.
    eapply (commits_Cat' _ _ _ [COLON]); [reflexivity| | |].
    { by apply commits_Star. }
    2: reflexivity.
    exact Htail.
Qed.

(** A line that begins with a tab is not accepted by the pattern. *)
Lemma exec_diagnostic_re_tab l : exec diagnostic_re (TAB :: l) = None.
Proof.
  cbv [diagnostic_re cat]. rewrite exec_Bol. reflexivity.
Qed.

Lemma exec_diagnostic_re_not_tab l caps :
  exec diagnostic_re l = Some caps → l !! 0%nat ≠ Some TAB.
Proof.
  destruct l as [|c l]; [done|]. intros H [= ->].
  by rewrite exec_diagnostic_re_tab in H.
Qed.

(** ** Numbers *)

Lemma round_binary64_exact n :
  (n < 2 ^ 53)%Z → round_binary64 n = Finite n.
Proof.
  intros Hn. unfold round_binary64.
  by destruct (Z.ltb_spec n (2 ^ 53)); [|lia].
Qed.

Lemma digit_value_range c : digit c = true → (0 ≤ digit_value c ≤ 9)%Z.
Proof.
  unfold digit, digit_value. intros H. apply andb_prop in H as [H1 H2].
  apply N.leb_le in H1, H2. lia.
Qed.

Lemma decimal_nonneg s : forallb digit s = true → (0 ≤ decimal s)%Z.
Proof.
  unfold decimal. assert (H : ∀ acc, (0 ≤ acc)%Z → forallb digit s = true →
    (0 ≤ fold_left (λ acc c, 10 * acc + digit_value c) s acc)%Z).
  { induction s as [|c s IH]; intros acc Hacc Hs; cbn [fold_left]; [done|].
    cbn in Hs. apply andb_prop in Hs as [Hc Hs]. apply IH; [|done].
    apply digit_value_range in Hc. lia. }
  by apply H.
Qed.

Lemma round_binary64_nonneg n :
  (0 ≤ n)%Z →
  round_binary64 n = Infinity ∨ ∃ z, round_binary64 n = Finite z ∧ (0 ≤ z)%Z.
Proof.
  intros Hn. unfold round_binary64.
  destruct (n <? 2 ^ 53)%Z; [eauto|].
  match goal with |- context [if ?b then Infinity else Finite ?v] =>
    destruct b; [by left|right; exists v; split; [done|]] end.
  apply Z.shiftl_nonneg.
  assert (0 ≤ Z.shiftr n (Z.log2 n - 52))%Z by by apply Z.shiftr_nonneg.
  destruct (_ || _); lia.
Qed.

(** [+str] on a capture of [\d+]. *)
Lemma ToNumber_digits s :
  forallb digit s = true → ToNumber s = round_binary64 (decimal s).
Proof. intros H. unfold ToNumber. by rewrite H. Qed.

(** [+str] on a capture of [\d?]: a number from 0 to 9. *)
Lemma ToNumber_column c :
  forallb digit c = true → (length c ≤ 1)%nat →
  ToNumber c = Finite (decimal c) ∧ (0 ≤ decimal c ≤ 9)%Z.
Proof.
  intros Hc Hlen. rewrite ToNumber_digits by done.
  destruct c as [|d [|]]; [by split| |cbn in Hlen; lia].
  cbn in Hc. rewrite andb_true_r in Hc. apply digit_value_range in Hc.
  unfold decimal. cbn [fold_left].
  rewrite round_binary64_exact by lia. split; [done|lia].
Qed.

(** ** The line loop of [runTool] *)

(** On a line the pattern accepts, the loop body pushes one diagnostic
    built from the five captures and logs it. *)
Lemma loopBody_match cwd severity_ ret out l p ln c sev m :
  exec diagnostic_re l = Some [p; ln; c; sev; m] →
  loopBody cwd severity_ (ret, out) l =
    let char_ :=
      match ToNumber c with Finite 0 => Finite 1 | _ => ToNumber c end in
    let file_ := path.resolve process_cwd [cwd; path.basename p] in
    (ret ++ [ {| file := file_; line := ToNumber ln; char := char_; msg := m;
                 severity := if bool_decide (sev ≠ []) then sev
                             else severity_ |} ],
     out ++ [ file_ ++ js ":" ++ NumberToString (ToNumber ln) ++ js ":"
              ++ NumberToString char_ ++ js ": " ++ m ]).
Proof.
  intros H. unfold loopBody.
  rewrite (bool_decide_false (l !! 0%nat = Some TAB))
    by by eapply exec_diagnostic_re_not_tab.
  cbn [andb]. by rewrite H.
Qed.

Lemma loopBody_no_match cwd severity_ st l :
  l !! 0%nat ≠ Some TAB → exec diagnostic_re l = None →
  loopBody cwd severity_ st l = st.
Proof.
  intros Htab H. destruct st as [ret out]. unfold loopBody.
  rewrite (bool_decide_false (l !! 0%nat = Some TAB)) by done.
  cbn [andb]. by rewrite H.
Qed.

Lemma loopBody_tab_nil cwd severity_ out l :
  loopBody cwd severity_ ([], out) (TAB :: l) = ([], out).
Proof.
  unfold loopBody. cbn [length]. rewrite (bool_decide_false (0 < 0)%nat) by lia.
  rewrite andb_false_r. by rewrite exec_diagnostic_re_tab.
Qed.

(** C10: a line that begins with a tab while no diagnostic has been
    produced yet is discarded: the diagnostic list stays empty and nothing
    is logged, for the loop body and so for a whole output made of such
    lines. *)
Theorem tab_line_without_diagnostic_is_discarded cwd severity_ out l :
  loopBody cwd severity_ ([], out) (TAB :: l) = ([], out)
  ∧ (loopBody cwd severity_ ([], out) (TAB :: l)).1 = []
  ∧ exec diagnostic_re (TAB :: l) = None.
Proof.
  rewrite loopBody_tab_nil. by rewrite exec_diagnostic_re_tab.
Qed.

(** C7: a line that begins with a tab, met when the list of diagnostics
    ends with [d], is appended after a newline to the message of [d]; no
    diagnostic is added, nothing else changes, and the loop goes on with
    the next line.  The pattern plays no part in the outcome. *)
Theorem tab_line_continues_last_diagnostic cwd severity_ ret d out l lines :
  let l' := TAB :: l in
  let d' := {| file := file d; line := line d; char := char d;
               msg := msg d ++ LF :: l'; severity := severity d |} in
  loopBody cwd severity_ (ret ++ [d], out) l' = (ret ++ [d'], out)
  ∧ length (ret ++ [d']) = length (ret ++ [d])
  ∧ fold_left (loopBody cwd severity_) (l' :: lines) (ret ++ [d], out)
    = fold_left (loopBody cwd severity_) lines (ret ++ [d'], out).
Proof.
  intros l' d'.
  assert (H : loopBody cwd severity_ (ret ++ [d], out) l' = (ret ++ [d'], out)).
  { unfold loopBody, l'. rewrite bool_decide_true by done.
    rewrite bool_decide_true by (rewrite length_app; cbn; lia).
    cbn [andb]. f_equal.
    replace (length (ret ++ [d]) - 1)%nat with (length ret + 0)%nat
      by (rewrite length_app; cbn; lia).
    by rewrite alter_app_r. }
  split; [done|]. split; [by rewrite !length_app|].
  cbn [fold_left]. by rewrite H.
Qed.

(** C1, as amended: a line [path:line:col:sev: msg] whose column has at
    most one digit and whose message holds no line terminator adds exactly
    one diagnostic, with the fields of the line: the line number is the
    Number denoted by [line] (its decimal value when that is below 2^53),
    the column is the digit, or 1 for no digit or the digit 0, the severity
    is [sev], or the default when [sev] is empty. *)
Theorem diagnostic_line_parsed cwd severity_ ret out p ln c sev m :
  forallb path_char p = true →
  forallb digit ln = true → ln ≠ [] →
  forallb digit c = true → (length c ≤ 1)%nat →
  forallb word sev = true →
  forallb any m = true →
  fst (loopBody cwd severity_ (ret, out)
         (p ++ COLON :: ln ++ COLON :: c ++ COLON :: sev
            ++ COLON :: SPACE :: m))
  = ret ++ [ {| file := path.resolve process_cwd [cwd; path.basename p];
                line := ToNumber ln;
                char := Finite (Z.max 1 (decimal c));
                msg := m;
                severity := if bool_decide (sev = []) then severity_
                            else sev |} ]
  ∧ ((decimal ln < 2 ^ 53)%Z → ToNumber ln = Finite (decimal ln)).
Proof.
  intros Hp Hln Hne Hc Hlen Hsev Hm. split.
  - rewrite (loopBody_match _ _ _ _ _ p ln c sev m)
      by by apply exec_diagnostic_re_line.
    cbn [fst]. do 2 f_equal.
    destruct (ToNumber_column c Hc Hlen) as [-> Hr].
    f_equal.
    + destruct (decimal c) as [|q|q] eqn:Hq; [done| |lia].
      f_equal. lia.
    + by destruct sev.
  - intros Hlt. rewrite ToNumber_digits by done.
    by apply round_binary64_exact.
Qed.

(** ** Paths *)

Lemma resolve_loop_absolute args : ∀ acc,
  path.isAbsolute process_cwd = true →
  (path.resolve_loop (args ++ [process_cwd]) acc).2 = true.
Proof.
  intros acc Habs. revert acc.
  induction args as [|p args IH]; intros acc; cbn [app path.resolve_loop].
  - destruct process_cwd as [|c pc]; [done|].
    rewrite bool_decide_false by done. by rewrite Habs.
  - destruct (bool_decide (p = [])); [done|].
    by destruct (path.isAbsolute p).
Qed.

(** [path.resolve] returns an absolute path. *)
Lemma resolve_absolute args :
  path.isAbsolute process_cwd = true →
  path.isAbsolute (path.resolve process_cwd args) = true.
Proof.
  intros Habs. unfold path.resolve.
  pose proof (resolve_loop_absolute (reverse args) [] Habs) as H.
  destruct (path.resolve_loop _ _) as [rp abs]. cbn in H. by subst abs.
Qed.

Lemma split_no_sep sep s : sep ∉ s → split sep s = [s].
Proof.
  induction s as [|c s IH]; intros Hs; cbn [split]; [done|].
  apply not_elem_of_cons in Hs as [Hc Hs].
  destruct (N.eqb_spec c sep) as [->|_]; [done|]. by rewrite IH.
Qed.

Lemma split_nonempty sep s : split sep s ≠ [].
Proof. destruct s as [|c s]; cbn; [done|]. destruct (c =? sep); [done|]. by destruct (split sep s). Qed.

Lemma last_split_is_Some sep s : is_Some (last (split sep s)).
Proof. apply last_is_Some, split_nonempty. Qed.

Lemma split_app sep a b :
  ∃ pre, split sep (a ++ sep :: b) = pre ++ split sep b ∧ pre ≠ [].
Proof.
  induction a as [|c a (pre & IH & Hne)]; cbn [app split].
  - rewrite N.eqb_refl. by exists [[]].
  - rewrite IH. destruct (c =? sep).
    + by exists ([] :: pre).
    + destruct pre as [|w pre]; [done|]. by exists ((c :: w) :: pre).
Qed.

Lemma last_split_app sep a b :
  last (split sep (a ++ sep :: b)) = last (split sep b).
Proof.
  destruct (split_app sep a b) as (pre & -> & _). rewrite last_app.
  by destruct (last_split_is_Some sep b) as [x ->].
Qed.

(** The directory part of a reported path is dropped. *)
Lemma basename_dir dir base :
  base ≠ [] → SLASH ∉ base → path.basename (dir ++ SLASH :: base) = base.
Proof.
  intros Hne Hs. unfold path.basename.
  assert (Hd : path.drop_slashes (reverse (dir ++ SLASH :: base))
               = reverse (dir ++ SLASH :: base)).
  { rewrite reverse_app, reverse_cons, <- app_assoc.
    destruct (reverse base) as [|c rb] eqn:Hrb.
    { apply (f_equal reverse) in Hrb. by rewrite reverse_involutive in Hrb. }
    cbn [app path.drop_slashes].
    destruct (N.eqb_spec c SLASH) as [->|_]; [|done].
    exfalso. apply Hs, elem_of_reverse. rewrite Hrb. left. }
  rewrite Hd, reverse_involutive.
  by rewrite last_split_app, split_no_sep.
Qed.

(** A reported path without a slash is its own basename. *)
Lemma basename_plain base :
  SLASH ∉ base → path.basename base = base.
Proof.
  intros Hs. unfold path.basename.
  assert (Hd : path.drop_slashes (reverse base) = reverse base).
  { destruct (reverse base) as [|c rb] eqn:Hrb; [done|].
    cbn [path.drop_slashes].
    destruct (N.eqb_spec c SLASH) as [->|_]; [|done].
    exfalso. apply Hs, elem_of_reverse. rewrite Hrb. left. }
  rewrite Hd, reverse_involutive. by rewrite split_no_sep.
Qed.

(** ** Positions and files of the diagnostics *)

Lemma loopBody_positioned cwd severity_ st l :
  path.isAbsolute process_cwd = true →
  Forall positioned st.1 → Forall positioned (loopBody cwd severity_ st l).1.
Proof.
  intros Habs Hst. destruct st as [ret out]. cbn [fst] in Hst.
  unfold loopBody. destruct (_ && _).
  - cbn [fst]. apply Forall_alter; [done|]. by intros [] _.
  - destruct (exec diagnostic_re l) as [caps|] eqn:He; [|done].
    destruct (exec_diagnostic_re_inv _ _ He)
      as (p & ln & c & k1 & sev & k2 & m & -> & _ & _ & Hln & _ & Hc & Hlen & _).
    cbn [fst]. apply Forall_app. split; [done|]. apply Forall_singleton.
    split; [|split]; cbn.
    + destruct (ToNumber_column c Hc Hlen) as [-> Hr].
      destruct (decimal c) as [|q|q]; [exists 1%Z|exists (Z.pos q)|lia];
        (split; [done|lia]).
    + rewrite ToNumber_digits by done.
      by apply round_binary64_nonneg, decimal_nonneg.
    + by apply resolve_absolute.
Qed.

Lemma fold_loopBody_positioned cwd severity_ lines : ∀ st,
  path.isAbsolute process_cwd = true →
  Forall positioned st.1 →
  Forall positioned (fold_left (loopBody cwd severity_) lines st).1.
Proof.
  induction lines as [|l lines IH]; intros st Habs Hst; cbn [fold_left];
    [done|].
  by apply IH, loopBody_positioned.
Qed.

Lemma parseOutput_positioned cmd args cwd severity_ useStdErr r :
  path.isAbsolute process_cwd = true →
  Forall positioned (parseOutput cmd args cwd severity_ useStdErr r).1.
Proof.
  intros Habs. unfold parseOutput.
  pose proof (fold_loopBody_positioned cwd severity_
    (split LF (if useStdErr then stderr r else stdout r))
    ([], [join [SPACE] (js "Finished running tool:" :: cmd :: args)]) Habs)
    as H.
  destruct (fold_left _ _ _) as [ret out]. by apply H.
Qed.

(** C8, as amended: every diagnostic that [runTool] resolves with has a
    column of at least 1 (at most 9), a file that is an absolute path, and
    a line number that is not negative; the line number is whatever the
    tool printed and is not raised to 1. *)
Theorem runTool_diagnostics_positioned
    cmd args cwd severity_ useStdErr notFoundError w v :
  path.isAbsolute process_cwd = true →
  (runTool cmd args cwd severity_ useStdErr notFoundError w).1 = Resolved v →
  Forall positioned v.
Proof.
  intros Habs. unfold runTool. destruct (isENOENT _).
  - intros [= <-]. constructor.
  - pose proof (parseOutput_positioned cmd args cwd severity_ useStdErr
      (execFile cmd args cwd) Habs) as H.
    destruct (parseOutput _ _ _ _ _ _) as [ret out].
    destruct (appendLines out (sink w)) as [[e|] s]; [done|].
    by intros [= <-].
Qed.

(** ** What [path.resolve] returns *)

Lemma split_app_sep sep a b :
  split sep (a ++ sep :: b) = split sep a ++ split sep b.
Proof.
  induction a as [|c a IH]; cbn [app split].
  - by rewrite N.eqb_refl.
  - rewrite IH. destruct (c =? sep); [done|].
    pose proof (split_nonempty sep a). by destruct (split sep a).
Qed.

Lemma split_parts_no_sep sep s : ∀ w, w ∈ split sep s → sep ∉ w.
Proof.
  induction s as [|c s IH]; intros w Hw; cbn [split] in Hw.
  - apply list_elem_of_singleton in Hw. subst w. apply not_elem_of_nil.
  - destruct (N.eqb_spec c sep) as [->|Hne].
    + apply elem_of_cons in Hw as [->|Hw]; [apply not_elem_of_nil|by apply IH].
    + pose proof (split_nonempty sep s).
      destruct (split sep s) as [|v vs]; [done|].
      apply elem_of_cons in Hw as [->|Hw].
      * apply not_elem_of_cons. split; [done|]. apply IH. left.
      * apply IH. by right.
Qed.

Lemma basename_no_slash p : SLASH ∉ path.basename p.
Proof.
  unfold path.basename.
  destruct (last (split SLASH _)) as [b|] eqn:Hb; [|apply not_elem_of_nil].
  cbn. eapply split_parts_no_sep, last_Some_elem_of, Hb.
Qed.

Lemma normalizeArray_app xs ys f : ∀ res,
  path.normalizeArray (xs ++ ys) res f
  = path.normalizeArray ys (path.normalizeArray xs res f) f.
Proof.
  induction xs as [|x xs IH]; intros res; cbn [app path.normalizeArray];
    [done|].
  destruct (_ || _); [apply IH|].
  destruct (bool_decide (x = [DOT; DOT])); [|apply IH].
  destruct (last res) as [top|]; [|apply IH].
  destruct (bool_decide (top = [DOT; DOT])); apply IH.
Qed.

Lemma normalizeArray_plain b res f :
  plain_name b → path.normalizeArray [b] res f = res ++ [b].
Proof.
  intros (H1 & H2 & H3 & _). cbn [path.normalizeArray].
  by rewrite !bool_decide_false by done.
Qed.

Lemma normalizeArray_dirs dirs : ∀ res f,
  Forall plain_name dirs →
  path.normalizeArray (split SLASH (join [SLASH] dirs)) res f = res ++ dirs.
Proof.
  induction dirs as [|d dirs IH]; intros res f Hd.
  - cbn. by rewrite app_nil_r.
  - apply Forall_cons in Hd as [Hd Hdirs].
    assert (Hs : split SLASH d = [d]).
    { apply split_no_sep. by destruct Hd as (_ & _ & _ & ?). }
    destruct dirs as [|d' dirs].
    + cbn [join]. rewrite Hs. by apply normalizeArray_plain.
    + change (join [SLASH] (d :: d' :: dirs))
        with (d ++ SLASH :: join [SLASH] (d' :: dirs)).
      rewrite split_app_sep, Hs, normalizeArray_app.
      rewrite normalizeArray_plain by done.
      rewrite IH by done. by rewrite <- app_assoc.
Qed.

Lemma join_snoc dirs b :
  dirs ≠ [] → join [SLASH] (dirs ++ [b]) = join [SLASH] dirs ++ SLASH :: b.
Proof.
  induction dirs as [|d dirs IH]; intros Hne; [done|].
  destruct dirs as [|d' dirs]; [done|].
  change (join [SLASH] ((d :: d' :: dirs) ++ [b]))
    with (d ++ SLASH :: join [SLASH] ((d' :: dirs) ++ [b])).
  rewrite IH by done. cbn [join]. by rewrite <- app_assoc.
Qed.

(** [path.resolve(cwd, b)] for a normalised absolute [cwd] and a name
    without slash: the name is added to the directories of [cwd], [.] and
    the empty name add nothing, and [..] removes the last directory. *)
Lemma resolve_under dirs b :
  Forall plain_name dirs → SLASH ∉ b →
  path.resolve process_cwd [absolute_path dirs; b]
  = absolute_path (path.normalizeArray [b] dirs false).
Proof.
  intros Hdirs Hb. unfold path.resolve.
  change (reverse [absolute_path dirs; b]) with [b; absolute_path dirs].
  cbn [app path.resolve_loop].
  assert (Habs : path.isAbsolute (absolute_path dirs) = true) by done.
  assert (Hroot : ∀ acc,
    path.normalizeArray (split SLASH (absolute_path dirs)) acc false
    = acc ++ dirs).
  { intros acc. unfold absolute_path. cbn [split].
    change (SLASH =? SLASH) with true. cbv iota. cbn [path.normalizeArray].
    rewrite bool_decide_true by done. cbn [orb].
    by apply normalizeArray_dirs. }
  destruct b as [|c b].
  - rewrite bool_decide_true by done.
    rewrite (bool_decide_false (absolute_path dirs = [])) by done.
    rewrite Habs. cbv iota beta.
    rewrite split_app_sep, normalizeArray_app, Hroot. done.
  - rewrite (bool_decide_false (c :: b = [])) by done.
    assert (path.isAbsolute (c :: b) = false) as ->.
    { unfold path.isAbsolute. apply bool_decide_false. intros [= ->].
      apply Hb. left. }
    rewrite (bool_decide_false (absolute_path dirs = [])) by done.
    rewrite Habs. cbv iota beta.
    rewrite split_app_sep, normalizeArray_app, Hroot.
    rewrite split_app_sep, (split_no_sep SLASH (c :: b)) by done.
    cbn [split app]. change [c :: b; []] with ([c :: b] ++ [[]]).
    by rewrite normalizeArray_app.
Qed.

Lemma first_sep_unique (sep : N) p p' r r' :
  sep ∉ p → sep ∉ p' → p ++ sep :: r = p' ++ sep :: r' → p = p'.
Proof.
  revert p'. induction p as [|c p IH]; intros [|c' p'] Hp Hp' H; cbn in H.
  - done.
  - injection H as -> _. exfalso. apply Hp'. left.
  - injection H as -> _. exfalso. apply Hp. left.
  - injection H as -> H. f_equal.
    apply not_elem_of_cons in Hp as [_ Hp].
    apply not_elem_of_cons in Hp' as [_ Hp']. by apply IH.
Qed.

Lemma path_char_not_COLON p : forallb path_char p = true → COLON ∉ p.
Proof.
  intros Hp Hin. rewrite forallb_forall in Hp.
  apply list_elem_of_In in Hin. by apply Hp in Hin.
Qed.

(** C9: on a line the pattern accepts, with [p] the path the tool
    reported (the text before the first colon) and the working directory
    of the invocation a normalised absolute path, the file of the
    diagnostic is that directory followed by a slash and the basename of
    [p]: [cwd/base].  The basename holds no slash; it is [p] itself when
    [p] has no directory part and [base] when [p] is [dir/base], whatever
    [dir] is.  Joining is that of [path.resolve]: a basename that is empty
    or [.] gives the working directory itself and [..] gives its parent. *)
Theorem matched_line_file_is_cwd_basename
    cwd severity_ ret out p rest caps dirs :
  exec diagnostic_re (p ++ COLON :: rest) = Some caps →
  COLON ∉ p →
  cwd = absolute_path dirs → Forall plain_name dirs →
  let b := path.basename p in
  ∃ d,
    (loopBody cwd severity_ (ret, out) (p ++ COLON :: rest)).1 = ret ++ [d]
    ∧ (SLASH ∉ b)
    ∧ (plain_name b →
       file d = absolute_path (dirs ++ [b])
       ∧ (dirs ≠ [] → file d = cwd ++ SLASH :: b))
    ∧ (b = [] ∨ b = [DOT] → file d = cwd)
    ∧ (b = [DOT; DOT] → file d = absolute_path (removelast dirs))
    ∧ (SLASH ∉ p → b = p)
    ∧ (∀ dir base, p = dir ++ SLASH :: base → base ≠ [] → SLASH ∉ base →
       b = base).
Proof.
  intros He Hp -> Hdirs b.
  destruct (exec_diagnostic_re_inv _ _ He)
    as (p' & ln & c & k1 & sev & k2 & m & -> & Hl & Hp' & _).
  apply first_sep_unique in Hl as <-; [|done|by apply path_char_not_COLON].
  rewrite (loopBody_match _ _ _ _ _ _ _ _ _ _ He). cbn [fst].
  eexists. split; [reflexivity|]. cbn [file]. fold b.
  pose proof (basename_no_slash p) as Hb. fold b in Hb.
  rewrite (resolve_under dirs b Hdirs Hb).
  split; [done|]. split; [|split; [|split; [|split]]].
  - intros Hplain. rewrite normalizeArray_plain by done.
    split; [done|]. intros Hne. unfold absolute_path.
    by rewrite join_snoc.
  - by intros [->| ->].
  - intros ->. cbn [path.normalizeArray].
    rewrite !bool_decide_false by done. cbn [orb].
    rewrite bool_decide_true by done.
    destruct (last dirs) as [top|] eqn:Htop.
    + rewrite bool_decide_false; [done|].
      apply last_Some_elem_of in Htop.
      rewrite Forall_forall in Hdirs. by destruct (Hdirs top Htop) as (_ & _ & ? & _).
    + apply last_None in Htop. by subst dirs.
  - apply basename_plain.
  - intros dir base ->. apply basename_dir.
Qed.

(** ** Line order *)

Lemma continued_refl d : continued d d.
Proof. repeat split. exists []. by rewrite app_nil_r. Qed.

Lemma continued_append_msg d0 d extra :
  continued d0 d → continued d0 (append_msg extra d).
Proof.
  intros (? & ? & ? & ? & x & Hx). repeat split; try done.
  exists (x ++ extra). cbn. by rewrite Hx, app_assoc.
Qed.

(** The loop body on a state with diagnostics [ret], against what the
    line yields on its own. *)
Lemma loopBody_in_line_order cwd severity_ ret out ret0 l :
  Forall2 continued ret0 ret →
  Forall2 continued (ret0 ++ (loopBody cwd severity_ ([], []) l).1)
    (loopBody cwd severity_ (ret, out) l).1.
Proof.
  intros Hret. destruct (decide (l !! 0%nat = Some TAB)) as [Htab|Htab].
  - destruct l as [|c l]; [done|]. injection Htab as ->.
    rewrite loopBody_tab_nil. cbn [fst].
    rewrite app_nil_r. unfold loopBody.
    rewrite bool_decide_true by done. cbn [andb].
    case_bool_decide as Hlen.
    + cbn [fst]. apply Forall2_alter_r; [done|].
      intros d0 d _ _. apply continued_append_msg.
    + by rewrite exec_diagnostic_re_tab.
  - destruct (exec diagnostic_re l) as [caps|] eqn:He.
    + destruct (exec_diagnostic_re_inv _ _ He)
        as (p & ln & c & k1 & sev & k2 & m & -> & _).
      rewrite !(loopBody_match _ _ _ _ _ _ _ _ _ _ He). cbn [fst app].
      apply Forall2_app; [done|]. constructor; [|done].
      apply continued_refl.
    + rewrite !loopBody_no_match by done. cbn [fst].
      by rewrite app_nil_r.
Qed.

(** The diagnostics of a tool's output are what its lines yield one by
    one, in the order of the lines; continuation lines only add to
    messages. *)
Lemma parseOutput_in_line_order cmd args cwd severity_ (useStdErr : bool) r :
  Forall2 continued
    (concat (map (λ l : jsstring, (loopBody cwd severity_ ([], []) l).1)
       (split LF (if useStdErr then stderr r else stdout r))))
    (parseOutput cmd args cwd severity_ useStdErr r).1.
Proof.
  unfold parseOutput.
  set (lines := split LF _). set (out0 := [join _ _]).
  assert (H : ∀ ret0 ret out, Forall2 continued ret0 ret →
    Forall2 continued
      (ret0 ++ concat (map (λ l : jsstring, (loopBody cwd severity_ ([], []) l).1) lines))
      (fold_left (loopBody cwd severity_) lines (ret, out)).1).
  { induction lines as [|l lines IH]; intros ret0 ret out Hret;
      cbn [map concat fold_left].
    - by rewrite app_nil_r.
    - rewrite app_assoc.
      pose proof (loopBody_in_line_order cwd severity_ ret out ret0 l Hret) as Hl.
      destruct (loopBody cwd severity_ (ret, out) l) as [ret' out'].
      by apply IH. }
  specialize (H [] [] out0 ltac:(constructor)).
  by destruct (fold_left _ _ _).
Qed.

(** ** The promise of [runTool] *)

Lemma appendLines_quiet out : ∀ s,
  (∀ l s', (appendLine l s').1 = None) → (appendLines out s).1 = None.
Proof.
  induction out as [|l out IH]; intros s Hq; cbn [appendLines]; [done|].
  specialize (Hq l s) as Hl. destruct (appendLine l s) as [[e|] s']; [done|].
  by apply IH.
Qed.

Lemma runTool_quiet cmd args cwd severity_ useStdErr notFoundError w :
  (∀ l s, (appendLine l s).1 = None) →
  (runTool cmd args cwd severity_ useStdErr notFoundError w).1
  = Resolved (contribution (Tool cmd args cwd severity_ useStdErr notFoundError)).
Proof.
  intros Hq. unfold runTool, contribution.
  destruct (isENOENT _); [done|].
  destruct (parseOutput _ _ _ _ _ _) as [ret out].
  pose proof (appendLines_quiet out (sink w) Hq) as H.
  by destruct (appendLines out (sink w)) as [[e|] s].
Qed.

(** ** [Promise.all] *)

Lemma omap_id_Some {A} (l : list A) : omap id (Some <$> l) = l.
Proof. induction l as [|x l IH]; [done|]. cbn. by rewrite IH. Qed.

Lemma complete_app running a b : ∀ st w,
  complete running (a ++ b) st w =
  complete running b (complete running a st w).1 (complete running a st w).2.
Proof.
  induction a as [|i a IH]; intros st w; cbn [app complete]; [done|].
  destruct (running !! i) as [t|]; [|done].
  by destruct (settle t w).
Qed.

Lemma complete_failed running order : ∀ st w e,
  promise st = Failed e →
  promise (complete running order st w).1 = Failed e.
Proof.
  induction order as [|i order IH]; intros st w e Hst; cbn [complete];
    [done|].
  destruct (running !! i) as [t|]; [|by apply IH].
  destruct (settle t w) as [[v|e'] w']; apply IH; cbn; by rewrite Hst.
Qed.

Lemma fan_in_init n vs order :
  length vs = n → order ≡ₚ seq 0 n → fan_in n vs order (all_init n).
Proof.
  intros Hlen Hperm. pose proof (Permutation_length Hperm) as Hl.
  rewrite length_seq in Hl. repeat split; cbn.
  - done.
  - by rewrite length_replicate.
  - intros i v Hi. apply lookup_lt_Some in Hi.
    rewrite lookup_replicate_2 by lia.
    rewrite bool_decide_true; [done|].
    rewrite Hperm. apply elem_of_seq. lia.
  - destruct order as [|j order]; cbn in Hl; rewrite <- Hl; cbn; [|done].
    f_equal. symmetry. apply nil_length_inv. congruence.
Qed.

Lemma fan_in_resolved n vs i v order st :
  length vs = n → i ∉ order → vs !! i = Some v →
  fan_in n vs (i :: order) st →
  fan_in n vs order (all_settle i (Resolved v) st).
Proof.
  intros Hlen Hi Hv (Hrem & Hvlen & Hvals & Hprom).
  assert (Hilt : (i < n)%nat) by (rewrite <- Hlen; by eapply lookup_lt_Some).
  assert (Hvals' : ∀ j vj, vs !! j = Some vj →
    <[i:=Some v]> (values st) !! j
    = Some (if bool_decide (j ∈ order) then None else Some vj)).
  { intros j vj Hj. destruct (decide (j = i)) as [->|Hne].
    - rewrite list_lookup_insert_eq by lia.
      rewrite bool_decide_false by done. congruence.
    - rewrite list_lookup_insert_ne by done. rewrite (Hvals j vj Hj).
      rewrite (bool_decide_ext (j ∈ i :: order) (j ∈ order)); [done|].
      rewrite elem_of_cons. split; [by intros [|]|by right]. }
  cbn [length] in Hrem. repeat split; cbn [all_settle remaining values promise].
  - lia.
  - by rewrite length_insert.
  - done.
  - rewrite Hprom, Hrem. cbn [Nat.sub]. rewrite Nat.sub_0_r.
    destruct order as [|j order]; cbn [length].
    + rewrite decide_True by done. f_equal.
      rewrite <- (omap_id_Some vs). f_equal.
      apply list_eq. intros j. rewrite list_lookup_fmap.
      destruct (vs !! j) as [vj|] eqn:Hj.
      * by rewrite (Hvals' j vj Hj).
      * apply lookup_ge_None in Hj. apply lookup_ge_None.
        rewrite length_insert. lia.
    + by rewrite decide_False by done.
Qed.

(** When every operation resolves, the combined promise is fulfilled by
    the last completion, with the values in the order of [running]. *)
Lemma complete_resolved running vs :
  length vs = length running →
  (∀ i t v w, running !! i = Some t → vs !! i = Some v →
     (settle t w).1 = Resolved v) →
  ∀ order st w,
    NoDup order → (∀ i, i ∈ order → (i < length running)%nat) →
    fan_in (length running) vs order st →
    promise (complete running order st w).1 = Fulfilled vs.
Proof.
  intros Hlen Hres. induction order as [|i order IH];
    intros st w Hnd Hrange Hinv; cbn [complete]; [apply Hinv|].
  apply NoDup_cons in Hnd as [Hi Hnd].
  assert (Hilt : (i < length running)%nat) by (apply Hrange; left).
  destruct (lookup_lt_is_Some_2 running i Hilt) as [t Ht].
  destruct (lookup_lt_is_Some_2 vs i ltac:(lia)) as [v Hv].
  rewrite Ht. specialize (Hres i t v w Ht Hv).
  destruct (settle t w) as [r w']. cbn [fst] in Hres. subst r.
  apply IH; [done| |by apply fan_in_resolved].
  intros j Hj. apply Hrange. by right.
Qed.

(** Whatever the operations do, the combined promise ends fulfilled with
    the values in the order of [running], or rejected. *)
Lemma complete_settled running vs :
  length vs = length running →
  (∀ i t v w, running !! i = Some t → (settle t w).1 = Resolved v →
     vs !! i = Some v) →
  ∀ order st w,
    NoDup order → (∀ i, i ∈ order → (i < length running)%nat) →
    fan_in (length running) vs order st →
    promise (complete running order st w).1 = Fulfilled vs
    ∨ ∃ e, promise (complete running order st w).1 = Failed e.
Proof.
  intros Hlen Hres. induction order as [|i order IH];
    intros st w Hnd Hrange Hinv; cbn [complete]; [left; apply Hinv|].
  apply NoDup_cons in Hnd as [Hi Hnd].
  assert (Hilt : (i < length running)%nat) by (apply Hrange; left).
  destruct (lookup_lt_is_Some_2 running i Hilt) as [t Ht].
  rewrite Ht. destruct (settle t w) as [[v|e] w'] eqn:Hs.
  - assert (Hv : vs !! i = Some v).
    { apply (Hres i t v w Ht). by rewrite Hs. }
    apply IH; [done| |by apply fan_in_resolved].
    intros j Hj. apply Hrange. by right.
  - right. exists e. apply complete_failed.
    destruct Hinv as (_ & _ & _ & Hprom). cbn. by rewrite Hprom.
Qed.

Lemma check_resolved filename cfg order w vs :
  length vs = length (runningToolsPromises filename cfg) →
  (∀ i t v w, runningToolsPromises filename cfg !! i = Some t →
     vs !! i = Some v → (settle t w).1 = Resolved v) →
  order ≡ₚ seq 0 (length (runningToolsPromises filename cfg)) →
  (check filename cfg order w).1 = Fulfilled (concat vs).
Proof.
  intros Hlen Hres Hperm. unfold check.
  set (running := runningToolsPromises filename cfg) in *.
  set (w0 := {| sink := clear (sink w); notifications := notifications w |}).
  pose proof (complete_resolved running vs Hlen Hres order
    (all_init (length running)) w0) as H.
  destruct (complete running order _ w0) as [st w']. cbn [fst] in *.
  rewrite H; [done|..].
  - rewrite Hperm. apply NoDup_seq.
  - intros i Hi. rewrite Hperm in Hi. apply elem_of_seq in Hi. lia.
  - by apply fan_in_init.
Qed.

Lemma check_settled filename cfg order w vs :
  length vs = length (runningToolsPromises filename cfg) →
  (∀ i t v w, runningToolsPromises filename cfg !! i = Some t →
     (settle t w).1 = Resolved v → vs !! i = Some v) →
  order ≡ₚ seq 0 (length (runningToolsPromises filename cfg)) →
  (check filename cfg order w).1 = Fulfilled (concat vs)
  ∨ ∃ e, (check filename cfg order w).1 = Failed e.
Proof.
  intros Hlen Hres Hperm. unfold check.
  set (running := runningToolsPromises filename cfg) in *.
  set (w0 := {| sink := clear (sink w); notifications := notifications w |}).
  pose proof (complete_settled running vs Hlen Hres order
    (all_init (length running)) w0) as H.
  destruct (complete running order _ w0) as [st w']. cbn [fst] in *.
  destruct H as [H|[e H]].
  - rewrite Hperm. apply NoDup_seq.
  - intros i Hi. rewrite Hperm in Hi. apply elem_of_seq in Hi. lia.
  - by apply fan_in_init.
  - left. by rewrite H.
  - right. exists e. by rewrite H.
Qed.

(** ** [check] *)

Lemma Cover_running filename cfg f :
  Cover f ∈ runningToolsPromises filename cfg →
  f = filename ∧ coverOnSave cfg = true.
Proof.
  unfold runningToolsPromises. rewrite !elem_of_app.
  intros [H|[H|[H|H]]].
  - destruct (buildOnSave cfg); [|by apply elem_of_nil in H].
    by apply list_elem_of_singleton in H.
  - destruct (lintOnSave cfg); [|by apply elem_of_nil in H].
    by apply list_elem_of_singleton in H.
  - destruct (vetOnSave cfg); [|by apply elem_of_nil in H].
    by apply list_elem_of_singleton in H.
  - destruct (coverOnSave cfg); [|by apply elem_of_nil in H].
    apply list_elem_of_singleton in H. by injection H as ->.
Qed.

Lemma settle_quiet filename cfg t w :
  (∀ l s, (appendLine l s).1 = None) →
  (coverOnSave cfg = true → ∃ v, getCoverage filename = Resolved v) →
  t ∈ runningToolsPromises filename cfg →
  (settle t w).1 = Resolved (contribution t).
Proof.
  intros Hq Hcov Ht. destruct t as [cmd args cwd sev use nf|f].
  - by apply runTool_quiet.
  - apply Cover_running in Ht as [-> Hc]. destruct (Hcov Hc) as [v Hv].
    cbn. by rewrite Hv.
Qed.

Lemma settle_contribution t w v :
  (settle t w).1 = Resolved v → v = contribution t.
Proof.
  destruct t as [cmd args cwd sev use nf|f]; cbn [settle contribution fst].
  - unfold runTool. destruct (isENOENT _); [by intros [= <-]|].
    destruct (parseOutput _ _ _ _ _ _) as [ret out].
    by destruct (appendLines out (sink w)) as [[e|] s]; [|intros [= <-]].
  - by intros ->.
Qed.

Lemma concat_contributions filename cfg :
  concat (contribution <$> runningToolsPromises filename cfg)
  = (if buildOnSave cfg then contribution (buildCheck filename cfg) else [])
    ++ (if lintOnSave cfg then contribution (lintCheck filename cfg) else [])
    ++ (if vetOnSave cfg then contribution (vetCheck filename cfg) else [])
    ++ (if coverOnSave cfg then contribution (Cover filename) else []).
Proof.
  unfold runningToolsPromises. rewrite !fmap_app, !concat_app.
  destruct (buildOnSave cfg), (lintOnSave cfg), (vetOnSave cfg),
    (coverOnSave cfg); cbn [fmap list_fmap concat]; by rewrite ?app_nil_r.
Qed.

(** C2: for every configuration, file name and order of completion, the
    one list [check] can be fulfilled with is that of the enabled checks
    concatenated in the order build, lint, vet, coverage (the alternative
    being rejection, see C4), and it is fulfilled with it when the log sink
    takes every line and the coverage collector, if enabled, resolves; the
    length of that list is the sum of the lengths of its four parts; and
    the diagnostics of one tool run are what the lines of its output yield
    one by one, in the order of the lines. *)
Theorem check_concatenates_in_fixed_order filename cfg order w :
  order ≡ₚ seq 0 (length (runningToolsPromises filename cfg)) →
  let build :=
    if buildOnSave cfg then contribution (buildCheck filename cfg) else [] in
  let lint :=
    if lintOnSave cfg then contribution (lintCheck filename cfg) else [] in
  let vet :=
    if vetOnSave cfg then contribution (vetCheck filename cfg) else [] in
  let cover :=
    if coverOnSave cfg then contribution (Cover filename) else [] in
  ((check filename cfg order w).1 = Fulfilled (build ++ lint ++ vet ++ cover)
   ∨ ∃ e, (check filename cfg order w).1 = Failed e)
  ∧ ((∀ l s, (appendLine l s).1 = None) →
     (coverOnSave cfg = true → ∃ v, getCoverage filename = Resolved v) →
     (check filename cfg order w).1
     = Fulfilled (build ++ lint ++ vet ++ cover))
  ∧ length (build ++ lint ++ vet ++ cover)
    = (length build + length lint + length vet + length cover)%nat
  ∧ ∀ cmd args cwd severity_ (useStdErr : bool) r,
      Forall2 continued
        (concat (map (λ l : jsstring, (loopBody cwd severity_ ([], []) l).1)
           (split LF (if useStdErr then stderr r else stdout r))))
        (parseOutput cmd args cwd severity_ useStdErr r).1.
Proof.
  intros Hperm build lint vet cover.
  unfold build, lint, vet, cover. rewrite <- concat_contributions.
  split; [|split; [|split]].
  - apply check_settled; [by rewrite length_fmap| |done].
    intros i t v w' Ht Hs. rewrite list_lookup_fmap, Ht. cbn.
    by rewrite (settle_contribution _ _ _ Hs).
  - intros Hq Hcov. apply check_resolved; [by rewrite length_fmap| |done].
    intros i t v w' Ht. rewrite list_lookup_fmap, Ht. intros [= <-].
    eapply settle_quiet; [done..|]. by eapply list_elem_of_lookup_2.
  - rewrite concat_contributions, !length_app. lia.
  - intros. apply parseOutput_in_line_order.
Qed.

(** C3: when the binary is absent, [runTool] resolves with no diagnostic
    and hands the not-found message to the notifier once, leaving the log
    sink as it was; and whenever the other started operations resolve,
    [check] is fulfilled, whatever the order of completion, with their
    lists alone, in their order. *)
Theorem absent_tool_resolves_empty_and_notifies
    cmd args cwd severity_ useStdErr notFoundError :
  isENOENT (execFile cmd args cwd) = true →
  (∀ w, runTool cmd args cwd severity_ useStdErr notFoundError w
        = (Resolved [],
           {| sink := sink w;
              notifications := notifications w ++ [notFoundError] |}))
  ∧ ∀ filename cfg i order w,
      runningToolsPromises filename cfg !! i
        = Some (Tool cmd args cwd severity_ useStdErr notFoundError) →
      (∀ j t w', j ≠ i → runningToolsPromises filename cfg !! j = Some t →
         (settle t w').1 = Resolved (contribution t)) →
      order ≡ₚ seq 0 (length (runningToolsPromises filename cfg)) →
      (check filename cfg order w).1
      = Fulfilled (concat (contribution <$>
                             delete i (runningToolsPromises filename cfg))).
Proof.
  intros Habsent.
  assert (Hrun : ∀ w, runTool cmd args cwd severity_ useStdErr notFoundError w
    = (Resolved [], {| sink := sink w;
         notifications := notifications w ++ [notFoundError] |})).
  { intros w. unfold runTool. by rewrite Habsent. }
  split; [done|]. intros filename cfg i order w Hi Hothers Hperm.
  set (running := runningToolsPromises filename cfg) in *.
  rewrite (check_resolved filename cfg order w (contribution <$> running)).
  - f_equal. rewrite <- (take_drop_middle running i _ Hi) at 1.
    rewrite delete_take_drop, !fmap_app, !concat_app, fmap_cons.
    cbn [concat contribution]. by rewrite Habsent.
  - by rewrite length_fmap.
  - intros j t v w' Ht. rewrite list_lookup_fmap.
    fold running in Ht. rewrite Ht. intros [= <-].
    destruct (decide (j = i)) as [->|Hne]; [|by apply (Hothers j)].
    rewrite Hi in Ht. injection Ht as <-. cbn [settle].
    rewrite Hrun. cbn. by rewrite Habsent.
  - done.
Qed.

Lemma complete_unfulfilled running order : ∀ st w,
  (length order < remaining st)%nat →
  (∀ v, promise st ≠ Fulfilled v) →
  ∀ v, promise (complete running order st w).1 ≠ Fulfilled v.
Proof.
  induction order as [|i order IH]; intros st w Hrem Hst; cbn [complete];
    [done|].
  cbn [length] in Hrem.
  destruct (running !! i) as [t|]; [|apply IH; [lia|done]].
  destruct (settle t w) as [[v|e'] w']; apply IH; cbn; try lia.
  - destruct (promise st) eqn:Hp; [|by intros|done].
    rewrite decide_False by lia. done.
  - by destruct (promise st).
Qed.

Lemma runTool_sink_exception
    cmd args cwd severity_ useStdErr notFoundError w e :
  isENOENT (execFile cmd args cwd) = false →
  (appendLines
     (parseOutput cmd args cwd severity_ useStdErr (execFile cmd args cwd)).2
     (sink w)).1 = Some e →
  (runTool cmd args cwd severity_ useStdErr notFoundError w).1 = Rejected e.
Proof.
  intros Hfound. unfold runTool. rewrite Hfound.
  destruct (parseOutput _ _ _ _ _ _) as [ret out]. cbn [snd].
  by destruct (appendLines out (sink w)) as [[e'|] s]; intros [= ->].
Qed.

Lemma rejected_operation_rejects_check filename cfg pre i post w t e :
  let running := runningToolsPromises filename cfg in
  let w0 := {| sink := clear (sink w); notifications := notifications w |} in
  pre ++ i :: post ≡ₚ seq 0 (length running) →
  running !! i = Some t →
  (settle t (complete running pre (all_init (length running)) w0).2).1
    = Rejected e →
  ∃ e', (check filename cfg (pre ++ i :: post) w).1 = Failed e'.
Proof.
  intros running w0 Hperm Ht Hrej. unfold check. fold running w0.
  rewrite complete_app.
  pose proof (complete_unfulfilled running pre (all_init (length running)) w0)
    as Hpre.
  destruct (complete running pre _ w0) as [st1 w1]. cbn [fst snd] in *.
  cbn [complete]. rewrite Ht.
  destruct (settle t w1) as [r w2]. cbn [fst] in Hrej. subst r.
  assert (Hst1 : ∀ v, promise st1 ≠ Fulfilled v).
  { apply Hpre.
    - apply Permutation_length in Hperm.
      rewrite length_seq, length_app in Hperm. cbn [length] in Hperm.
      unfold all_init. cbn [remaining]. lia.
    - assert (i < length running)%nat by by eapply lookup_lt_Some.
      unfold all_init. cbn [promise]. by destruct (length running); [lia|]. }
  assert (∃ e', promise (all_settle i (Rejected e) st1) = Failed e')
    as [e' He'].
  { cbn. destruct (promise st1) as [|v|e0]; [by eexists| |by eexists].
    by destruct (Hst1 v). }
  exists e'.
  pose proof (complete_failed running post _ w2 e' He') as Hpost.
  destruct (complete running post _ w2) as [st3 w3]. cbn [fst] in *.
  by rewrite Hpost.
Qed.

(** C4: when the tool run that completes at some point of [check] found
    its binary and the log sink throws while its output is processed (the
    one exception the [try] block can meet), [check] is rejected, whatever
    completed before and whatever completes after: no list of diagnostics
    is returned.  The same holds of any started operation whose promise
    rejects. *)
Theorem rejected_check_rejects_whole_operation filename cfg pre i post w :
  let running := runningToolsPromises filename cfg in
  let w0 := {| sink := clear (sink w); notifications := notifications w |} in
  let w1 := (complete running pre (all_init (length running)) w0).2 in
  pre ++ i :: post ≡ₚ seq 0 (length running) →
  (∀ cmd args cwd severity_ useStdErr notFoundError e,
     running !! i = Some (Tool cmd args cwd severity_ useStdErr notFoundError) →
     isENOENT (execFile cmd args cwd) = false →
     (appendLines
        (parseOutput cmd args cwd severity_ useStdErr
           (execFile cmd args cwd)).2 (sink w1)).1 = Some e →
     ∃ e', (check filename cfg (pre ++ i :: post) w).1 = Failed e')
  ∧ (∀ t e, running !! i = Some t → (settle t w1).1 = Rejected e →
     ∃ e', (check filename cfg (pre ++ i :: post) w).1 = Failed e').
Proof.
  intros running w0 w1 Hperm. split.
  - intros cmd args cwd severity_ useStdErr notFoundError e Ht Hfound He.
    eapply rejected_operation_rejects_check; [done..|].
    cbn [settle]. by apply runTool_sink_exception.
  - intros t e Ht Hrej. by eapply rejected_operation_rejects_check.
Qed.

Lemma appendLines_throws_at out : ∀ s e,
  (appendLines out s).1 = Some e →
  ∃ l s', l ∈ out ∧ (appendLine l s').1 = Some e.
Proof.
  induction out as [|l out IH]; intros s e; cbn [appendLines]; [done|].
  destruct (appendLine l s) as [[e'|] s'] eqn:Hl.
  - intros [= ->]. exists l, s. split; [left|by rewrite Hl].
  - intros H. destruct (IH _ _ H) as (l' & s'' & Hin & He).
    exists l', s''. split; [by right|done].
Qed.

(** C5, as amended: what the promise of [runTool] settles to once
    [execFile] has called back.  A missing binary: the promise is resolved
    with the empty list, the not-found message has gone to the notifier
    once, and the log is untouched.  Any other outcome: the header, one
    line per diagnostic and the empty line go to the log sink; when the
    sink takes them all the promise is resolved with the parsed list and
    the notifier is not called; when a call of [appendLine] throws the
    promise is rejected with what that call threw.  So the promise is
    rejected exactly when the binary was found and the sink threw on one of
    those lines, and it is resolved whenever the sink takes what it is
    given. *)
Theorem runTool_rejects_only_on_sink_exception
    cmd args cwd severity_ useStdErr notFoundError w :
  let r := execFile cmd args cwd in
  let parsed := parseOutput cmd args cwd severity_ useStdErr r in
  let settled := runTool cmd args cwd severity_ useStdErr notFoundError w in
  (isENOENT r = true →
   settled = (Resolved [],
              {| sink := sink w;
                 notifications := notifications w ++ [notFoundError] |}))
  ∧ (isENOENT r = false →
     ∀ s, appendLines parsed.2 (sink w) = (None, s) →
     settled = (Resolved parsed.1,
                {| sink := s; notifications := notifications w |}))
  ∧ (isENOENT r = false →
     ∀ e s, appendLines parsed.2 (sink w) = (Some e, s) →
     settled = (Rejected e,
                {| sink := s; notifications := notifications w |}))
  ∧ ((∀ l s, (appendLine l s).1 = None) →
     settled.1 = Resolved (if isENOENT r then [] else parsed.1))
  ∧ (∀ e, settled.1 = Rejected e
          ↔ isENOENT r = false
            ∧ (appendLines parsed.2 (sink w)).1 = Some e)
  ∧ (∀ e, settled.1 = Rejected e →
       ∃ l s, l ∈ parsed.2 ∧ (appendLine l s).1 = Some e).
Proof.
  intros r parsed settled.
  assert (Hrej : ∀ e, settled.1 = Rejected e
    ↔ isENOENT r = false ∧ (appendLines parsed.2 (sink w)).1 = Some e).
  { intros e. unfold settled, runTool. fold r. destruct (isENOENT r).
    { split; [done|by intros [? _]]. }
    fold parsed. destruct parsed as [ret out]. cbn [snd].
    destruct (appendLines out (sink w)) as [[e'|] s]; cbn [fst].
    - split; [by intros [= ->]|by intros [_ [= ->]]].
    - split; [done|by intros [_ ?]]. }
  split; [|split; [|split; [|split; [|split]]]].
  - intros H. unfold settled, runTool. fold r. by rewrite H.
  - intros H s Hs. unfold settled, runTool. fold r. rewrite H. fold parsed.
    destruct parsed as [ret out]. cbn [fst snd] in *. by rewrite Hs.
  - intros H e s Hs. unfold settled, runTool. fold r. rewrite H. fold parsed.
    destruct parsed as [ret out]. cbn [fst snd] in *. by rewrite Hs.
  - intros Hq. unfold settled. rewrite runTool_quiet by done. done.
  - done.
  - intros e He. apply Hrej in He as [_ He].
    by apply (appendLines_throws_at _ (sink w)).
Qed.

(** ** Which lines the pattern accepts, and what it captures *)

Lemma commits_runs k1 sev k2 m :
  forallb (exactly COLON) k1 = true → forallb word sev = true →
  forallb (exactly COLON) k2 = true → forallb any m = true →
  commits
    (Cat (Star (exactly COLON))
       (Cat (Grp (Star word))
          (Cat (Star (exactly COLON))
             (Cat (Chr (exactly SPACE)) (Cat (Grp (Star any)) Eol)))))
    (k1 ++ sev ++ k2 ++ SPACE :: m) [] [sev; m].
Proof.
  intros Hk1 Hsev Hk2 Hm.
  assert (Htail : commits
    (Cat (Chr (exactly SPACE)) (Cat (Grp (Star any)) Eol)) (SPACE :: m) [] [m]).
  { eapply (commits_Cat' _ _ _ [SPACE]); [reflexivity| | |].
    { by apply commits_Chr. }
    2: reflexivity.
    eapply (commits_Cat' _ _ _ m []); [by rewrite app_nil_r| | |].
    { apply commits_Grp, commits_Star; done. }
    { apply commits_Eol. }
    reflexivity. }
  destruct sev as [|a sev].
  - eapply (commits_Cat' _ _ _ (k1 ++ k2) (SPACE :: m));
      [by rewrite <- app_assoc| | |].
    { apply commits_Star; [|done]. by rewrite forallb_app, Hk1, Hk2. }
    2: reflexivity.
    eapply (commits_Cat' _ _ _ []); [reflexivity| | |].
    { apply commits_Grp, commits_Star; done. }
    2: reflexivity.
    eapply (commits_Cat' _ _ _ []); [reflexivity| | |].
    { by apply commits_Star. }
    2: reflexivity.
    exact Htail.
  - cbn [forallb] in Hsev. apply andb_prop in Hsev as [Ha Hsev].
    eapply (commits_Cat' _ _ _ k1); [reflexivity| | |].
    { apply commits_Star; [done|]. by apply word_not_COLON. }
    2: reflexivity.
    eapply (commits_Cat' _ _ _ (a :: sev)); [reflexivity| | |].
    { apply commits_Grp, commits_Star; [cbn; by rewrite Ha|].
      destruct k2 as [|c k2]; [done|]. cbn [forallb] in Hk2.
      apply andb_prop in Hk2 as [Hc _]. apply exactly_true in Hc. by subst c. }
    2: reflexivity.
    eapply (commits_Cat' _ _ _ k2); [reflexivity| | |].
    { by apply commits_Star. }
    2: reflexivity.
    exact Htail.
Qed.

(** Every line of the shape is accepted; the column capture is the digit
    that follows the second colon when there is one. *)
Lemma exec_diagnostic_re_shape p ln c k1 sev k2 m :
  forallb path_char p = true →
  forallb digit ln = true → ln ≠ [] →
  forallb digit c = true → (length c ≤ 1)%nat →
  forallb (exactly COLON) k1 = true →
  forallb word sev = true →
  forallb (exactly COLON) k2 = true →
  forallb any m = true →
  ∃ sev',
    exec diagnostic_re
      (p ++ COLON :: ln ++ COLON :: c ++ k1 ++ sev ++ k2 ++ SPACE :: m)
    = Some [p; ln;
            match c ++ k1 ++ sev ++ k2 ++ SPACE :: m with
            | dg :: _ => if digit dg then [dg] else []
            | [] => []
            end; sev'; m].
Proof.
  intros Hp Hln Hne Hc Hlen Hk1 Hsev Hk2 Hm.
  assert (Hgo : ∀ c' rest sev',
    c ++ k1 ++ sev ++ k2 ++ SPACE :: m = c' ++ rest →
    commits (Grp (Opt digit)) c' rest [c'] →
    commits
      (Cat (Star (exactly COLON))
         (Cat (Grp (Star word))
            (Cat (Star (exactly COLON))
               (Cat (Chr (exactly SPACE)) (Cat (Grp (Star any)) Eol)))))
      rest [] [sev'; m] →
    exec diagnostic_re
      (p ++ COLON :: ln ++ COLON :: c ++ k1 ++ sev ++ k2 ++ SPACE :: m)
    = Some [p; ln; c'; sev'; m]).
  { intros c' rest sev' -> Hc' Hrest.
    cbv [diagnostic_re cat]. apply exec_commits.
    destruct ln as [|d ln]; [done|]. cbn [forallb] in Hln.
    apply andb_prop in Hln as [Hd Hln].
    eapply (commits_Cat' _ _ _ p); [reflexivity| | |].
    { apply commits_Grp, commits_Star; done. }
    2: reflexivity.
    eapply (commits_Cat' _ _ _ [COLON]); [reflexivity| | |].
    { by apply commits_Chr. }
    2: reflexivity.
    eapply (commits_Cat' _ _ _ (d :: ln)); [reflexivity| | |].
    { apply commits_Grp, commits_Plus; done. }
    2: reflexivity.
    eapply (commits_Cat' _ _ _ [COLON]); [reflexivity| | |].
    { by apply commits_Chr. }
    2: reflexivity.
    eapply (commits_Cat' _ _ _ c' rest); [reflexivity| | |].
    { rewrite app_nil_r. exact Hc'. }
    { exact Hrest. }
    reflexivity. }
  assert (Hnone : ∀ rest, stops digit rest →
    commits (Grp (Opt digit)) [] rest [[]]).
  { intros rest Hs. apply (commits_Grp _ [] _ []). by apply commits_Opt_none. }
  assert (Hone : ∀ dg rest, digit dg = true →
    commits (Grp (Opt digit)) [dg] rest [[dg]]).
  { intros dg rest Hd. apply (commits_Grp _ [dg] _ []).
    by apply commits_Opt_one. }
  destruct c as [|dg [|]]; [| |cbn in Hlen; lia].
  - destruct k1 as [|c1 k1].
    + destruct sev as [|a sev].
      * exists []. cbn [app].
        assert (Hs : stops digit (k2 ++ SPACE :: m)).
        { destruct k2 as [|c2 k2]; [done|]. cbn [forallb] in Hk2.
          apply andb_prop in Hk2 as [Hc2 _]. apply exactly_true in Hc2.
          by subst c2. }
        replace (match k2 ++ SPACE :: m with
                 | dg :: _ => if digit dg then [dg] else []
                 | [] => []
                 end) with (@nil N).
        2:{ destruct (k2 ++ SPACE :: m) as [|x ?]; [done|].
            cbn in Hs. by rewrite Hs. }
        apply (Hgo [] (k2 ++ SPACE :: m) []); [done|by apply Hnone|].
        by apply (commits_runs [] [] k2 m).
      * cbn [app]. destruct (digit a) eqn:Ha.
        -- exists sev. cbn [forallb] in Hsev. apply andb_prop in Hsev as [_ Hsev].
           apply (Hgo [a] (sev ++ k2 ++ SPACE :: m) sev);
             [done|by apply Hone|].
           by apply (commits_runs [] sev k2 m).
        -- exists (a :: sev).
           apply (Hgo [] ((a :: sev) ++ k2 ++ SPACE :: m) (a :: sev));
             [done|by apply Hnone|].
           by apply (commits_runs [] (a :: sev) k2 m).
    + cbn [forallb] in Hk1. apply andb_prop in Hk1 as [Hc1 Hk1].
      apply exactly_true in Hc1. subst c1. cbn [app].
      change (digit COLON) with false. cbv iota.
      exists sev.
      apply (Hgo [] ((COLON :: k1) ++ sev ++ k2 ++ SPACE :: m) sev);
        [done|by apply Hnone|].
      apply (commits_runs (COLON :: k1) sev k2 m); [|done..].
      cbn. by rewrite Hk1.
  - cbn [forallb] in Hc. rewrite andb_true_r in Hc. cbn [app]. rewrite Hc.
    exists sev.
    apply (Hgo [dg] (k1 ++ sev ++ k2 ++ SPACE :: m) sev);
      [done|by apply Hone|].
    by apply commits_runs.
Qed.

(** ** More on the line loop *)

(** X1: what [runTool] writes to the output channel for a tool that ran:
    the line [Finished running tool: cmd args], then one line per
    diagnostic, in order, made of its file, line, column and the first
    line of its message (the text before the first newline: what
    continuation lines add is not logged), then an empty line. *)
Theorem parseOutput_log_lines cmd args cwd severity_ useStdErr r :
  ∃ body,
    (parseOutput cmd args cwd severity_ useStdErr r).2
    = join [SPACE] (js "Finished running tool:" :: cmd :: args)
      :: body ++ [[]]
    ∧ Forall2
        (λ d logged, ∃ msg0 extra,
           msg d = msg0 ++ extra
           ∧ forallb any msg0 = true
           ∧ (extra = [] ∨ ∃ x, extra = LF :: x)
           ∧ logged = file d ++ js ":" ++ NumberToString (line d) ++ js ":"
                      ++ NumberToString (char d) ++ js ": " ++ msg0)
        (parseOutput cmd args cwd severity_ useStdErr r).1 body.
Proof.
  unfold parseOutput.
  set (lines := split LF _). set (header := join _ _).
  set (R := λ (d : ICheckResult) (logged : jsstring), ∃ msg0 extra,
    msg d = msg0 ++ extra
    ∧ forallb any msg0 = true
    ∧ (extra = [] ∨ ∃ x, extra = LF :: x)
    ∧ logged = file d ++ js ":" ++ NumberToString (line d) ++ js ":"
               ++ NumberToString (char d) ++ js ": " ++ msg0).
  assert (H : ∀ ret body, Forall2 R ret body →
    ∃ body', (fold_left (loopBody cwd severity_) lines (ret, header :: body)).2
             = header :: body'
      ∧ Forall2 R
          (fold_left (loopBody cwd severity_) lines (ret, header :: body)).1
          body').
  { induction lines as [|l lines IH]; intros ret body Hret; cbn [fold_left].
    { by exists body. }
    assert (∃ ret' body', loopBody cwd severity_ (ret, header :: body) l
              = (ret', header :: body') ∧ Forall2 R ret' body')
      as (ret' & body' & -> & Hret'); [|by apply IH].
    unfold loopBody. destruct (_ && _).
    - eexists _, body. split; [done|].
      apply Forall2_alter_l; [done|].
      intros d logged _ _ (msg0 & extra & Hm & Hany & Hextra & ->).
      exists msg0, (extra ++ LF :: l). cbn. rewrite Hm, app_assoc.
      repeat split; [done|].
      right. destruct Hextra as [->|[x ->]]; [by exists l|].
      by exists (x ++ LF :: l).
    - destruct (exec diagnostic_re l) as [caps|] eqn:He; [|by exists ret, body].
      destruct (exec_diagnostic_re_inv _ _ He)
        as (p & ln & c & k1 & sev & k2 & m & -> & _ & _ & _ & _ & _ & _ & _
            & _ & _ & Hm).
      eexists _, (body ++ [_]). split; [done|].
      apply Forall2_app; [done|]. constructor; [|done].
      exists m, []. cbn. rewrite app_nil_r. repeat split; [done|by left]. }
  destruct (H [] [] ltac:(constructor)) as (body & Hout & Hret).
  destruct (fold_left _ _ _) as [ret out]. cbn [fst snd] in *. subst out.
  by exists body.
Qed.

(** X2: a line adds a diagnostic exactly when it reads: a run of word
    characters, dots and slashes, a colon, one or more digits, a colon, at
    most one digit, colons, word characters, colons, a blank, and a rest
    without line terminator.  Every other line, a banner or a summary say,
    adds none. *)
Theorem loopBody_adds_iff_shape cwd severity_ ret out l :
  length (loopBody cwd severity_ (ret, out) l).1 = S (length ret)
  ↔ ∃ p ln c k1 sev k2 m,
      l = p ++ COLON :: ln ++ COLON :: c ++ k1 ++ sev ++ k2 ++ SPACE :: m
      ∧ forallb path_char p = true
      ∧ forallb digit ln = true ∧ ln ≠ []
      ∧ forallb digit c = true ∧ (length c ≤ 1)%nat
      ∧ forallb (exactly COLON) k1 = true
      ∧ forallb word sev = true
      ∧ forallb (exactly COLON) k2 = true
      ∧ forallb any m = true.
Proof.
  split.
  - unfold loopBody. destruct (_ && _) eqn:Hguard.
    { cbn [fst]. rewrite length_alter. lia. }
    destruct (exec diagnostic_re l) as [caps|] eqn:He; [|cbn; lia].
    intros _. destruct (exec_diagnostic_re_inv _ _ He)
      as (p & ln & c & k1 & sev & k2 & m & _ & H). eauto 10.
  - intros (p & ln & c & k1 & sev & k2 & m & -> & Hp & Hln & Hne & Hc & Hlen
            & Hk1 & Hsev & Hk2 & Hm).
    destruct (exec_diagnostic_re_shape p ln c k1 sev k2 m) as [sev' He];
      [done..|].
    rewrite (loopBody_match _ _ _ _ _ _ _ _ _ _ He). cbn [fst].
    rewrite length_app. cbn. lia.
Qed.

Lemma forallb_not_elem (p : N → bool) w x :
  forallb p w = true → p x = false → x ∉ w.
Proof.
  intros Hw Hx Hin. rewrite forallb_forall in Hw.
  apply list_elem_of_In in Hin. apply Hw in Hin. congruence.
Qed.

(** X12: where the fields of a diagnostic come from.  On a line the
    pattern accepts, the line number is the Number denoted by the digits
    between the first two colons; the column is the one digit that follows
    the second colon, and 1 when that digit is 0 or what follows is no
    digit (of a column of several digits the first alone is read); the
    message is what follows the first blank of the line. *)
Theorem accepted_line_fields cwd severity_ ret out l caps :
  exec diagnostic_re l = Some caps →
  ∃ p ln rest head m d,
    l = p ++ COLON :: ln ++ COLON :: rest ∧ (COLON ∉ p) ∧ (COLON ∉ ln)
    ∧ l = head ++ SPACE :: m ∧ (SPACE ∉ head)
    ∧ (loopBody cwd severity_ (ret, out) l).1 = ret ++ [d]
    ∧ line d = ToNumber ln
    ∧ char d = match rest with
               | dg :: _ =>
                   if digit dg then Finite (Z.max 1 (digit_value dg))
                   else Finite 1
               | [] => Finite 1
               end
    ∧ msg d = m.
Proof.
  intros He.
  destruct (exec_diagnostic_re_inv _ _ He)
    as (p & ln & c & k1 & sev & k2 & m & -> & -> & Hp & Hln & Hne & Hc & Hlen
        & Hk1 & Hsev & Hk2 & Hm).
  destruct (exec_diagnostic_re_shape p ln c k1 sev k2 m) as [sev' He'];
    [done..|].
  rewrite He in He'. injection He' as Hcanon _.
  rewrite (loopBody_match _ _ _ _ _ _ _ _ _ _ He). cbn [fst].
  exists p, ln, (c ++ k1 ++ sev ++ k2 ++ SPACE :: m),
    (p ++ COLON :: ln ++ COLON :: c ++ k1 ++ sev ++ k2), m.
  eexists. split; [done|].
  split; [by apply (forallb_not_elem path_char)|].
  split; [by apply (forallb_not_elem digit)|].
  split; [by rewrite <- !app_assoc; cbn; rewrite <- !app_assoc; cbn;
          rewrite <- !app_assoc|].
  split.
  { rewrite !elem_of_app, !elem_of_cons, !elem_of_app, !elem_of_cons,
      !elem_of_app.
    pose proof (forallb_not_elem path_char p SPACE Hp eq_refl).
    pose proof (forallb_not_elem digit ln SPACE Hln eq_refl).
    pose proof (forallb_not_elem digit c SPACE Hc eq_refl).
    pose proof (forallb_not_elem (exactly COLON) k1 SPACE Hk1 eq_refl).
    pose proof (forallb_not_elem word sev SPACE Hsev eq_refl).
    pose proof (forallb_not_elem (exactly COLON) k2 SPACE Hk2 eq_refl).
    intros [?|[?|[?|[?|[?|[?|[?|?]]]]]]]; done. }
  split; [reflexivity|]. split; [reflexivity|]. split; [|reflexivity].
  cbn [char]. destruct (ToNumber_column c Hc Hlen) as [-> Hr].
  destruct (c ++ k1 ++ sev ++ k2 ++ SPACE :: m) as [|dg rest].
  - subst c. done.
  - destruct (digit dg) eqn:Hd; subst c; [|done].
    unfold decimal. cbn [fold_left].
    apply digit_value_range in Hd.
    replace (10 * 0 + digit_value dg)%Z with (digit_value dg) by lia.
    destruct (digit_value dg) as [|q|q] eqn:Hq; [done| |lia].
    f_equal. lia.
Qed.

(** X3: a line never removes a diagnostic and adds at most one, so a tool
    run yields at most as many diagnostics as its output has lines. *)
Theorem diagnostics_bounded_by_lines
    cmd args cwd severity_ (useStdErr : bool) r :
  (∀ ret out l,
     (length ret ≤ length (loopBody cwd severity_ (ret, out) l).1
      ≤ S (length ret))%nat)
  ∧ (length (parseOutput cmd args cwd severity_ useStdErr r).1
     ≤ length (split LF (if useStdErr then stderr r else stdout r)))%nat.
Proof.
  assert (Hstep : ∀ ret out l,
    (length ret ≤ length (loopBody cwd severity_ (ret, out) l).1
     ≤ S (length ret))%nat).
  { intros ret out l. unfold loopBody. destruct (_ && _).
    { cbn [fst]. rewrite length_alter. lia. }
    destruct (exec diagnostic_re l) as [caps|] eqn:He; [|cbn; lia].
    destruct (exec_diagnostic_re_inv _ _ He)
      as (p & ln & c & k1 & sev & k2 & m & -> & _).
    cbn [fst]. rewrite length_app. cbn. lia. }
  split; [done|]. unfold parseOutput.
  set (lines := split LF _). set (out0 := [join _ _]).
  assert (H : ∀ st,
    (length (fold_left (loopBody cwd severity_) lines st).1
     ≤ length st.1 + length lines)%nat).
  { induction lines as [|l lines IH]; intros [ret out]; cbn [fold_left fst length].
    - lia.
    - specialize (IH (loopBody cwd severity_ (ret, out) l)).
      specialize (Hstep ret out l). lia. }
  specialize (H ([], out0)). by destruct (fold_left _ _ _).
Qed.

Lemma take_while_run (p : codeunit → bool) w t :
  forallb p w = true →
  match t with x :: _ => p x = false | [] => True end →
  take_while p (w ++ t) = w.
Proof.
  intros Hw Ht. induction w as [|c w IH]; cbn [app take_while].
  - destruct t as [|x t]; [done|]. cbn. by rewrite Ht.
  - cbn [forallb] in Hw. apply andb_prop in Hw as [-> Hw]. by rewrite IH.
Qed.

Lemma drop_while_run (p : codeunit → bool) k t :
  forallb p k = true → drop_while p (k ++ t) = drop_while p t.
Proof.
  intros Hk. induction k as [|c k IH]; cbn [app drop_while]; [done|].
  cbn [forallb] in Hk. apply andb_prop in Hk as [-> Hk]. by apply IH.
Qed.

(** The word the pattern captures as severity is the one [severity_word]
    reads. *)
Lemma severity_word_captured c k1 sev k2 m :
  c = match c ++ k1 ++ sev ++ k2 ++ SPACE :: m with
      | dg :: _ => if digit dg then [dg] else []
      | [] => []
      end →
  forallb (exactly COLON) k1 = true →
  forallb word sev = true →
  forallb (exactly COLON) k2 = true →
  severity_word (c ++ k1 ++ sev ++ k2 ++ SPACE :: m) = sev.
Proof.
  intros Hc Hk1 Hsev Hk2.
  assert (Hread : take_while word
    (drop_while (exactly COLON) (k1 ++ sev ++ k2 ++ SPACE :: m)) = sev).
  { rewrite drop_while_run by done.
    assert (Htail : match k2 ++ SPACE :: m with
                    | x :: _ => word x = false
                    | [] => True
                    end).
    { destruct k2 as [|x k2]; [done|]. cbn [forallb] in Hk2.
      apply andb_prop in Hk2 as [Hx _]. apply exactly_true in Hx.
      by subst x. }
    destruct sev as [|a sev].
    - cbn [app]. rewrite drop_while_run by done. done.
    - cbn [app drop_while]. cbn [forallb] in Hsev.
      apply andb_prop in Hsev as [Ha Hsev].
      rewrite (word_not_COLON a Ha).
      change (a :: sev ++ k2 ++ SPACE :: m)
        with ((a :: sev) ++ k2 ++ SPACE :: m).
      apply take_while_run; [|done]. cbn [forallb]. by rewrite Ha. }
  unfold severity_word.
  destruct (c ++ k1 ++ sev ++ k2 ++ SPACE :: m) as [|dg t] eqn:Ht.
  { by destruct c, k1, sev, k2. }
  destruct (digit dg) eqn:Hd.
  - subst c. cbn [app] in Ht. injection Ht as <-. done.
  - subst c. cbn [app] in Ht. by rewrite <- Ht.
Qed.

Lemma loopBody_severity cwd severity_ ret out l caps :
  exec diagnostic_re l = Some caps →
  ∃ p ln rest d,
    l = p ++ COLON :: ln ++ COLON :: rest ∧ (COLON ∉ p) ∧ (COLON ∉ ln)
    ∧ (loopBody cwd severity_ (ret, out) l).1 = ret ++ [d]
    ∧ severity d = (if bool_decide (severity_word rest ≠ [])
                    then severity_word rest else severity_)
    ∧ forallb word (severity_word rest) = true.
Proof.
  intros He.
  destruct (exec_diagnostic_re_inv _ _ He)
    as (p & ln & c & k1 & sev & k2 & m & -> & -> & Hp & Hln & Hne & Hc & Hlen
        & Hk1 & Hsev & Hk2 & Hm).
  destruct (exec_diagnostic_re_shape p ln c k1 sev k2 m) as [sev' He'];
    [done..|].
  rewrite He in He'. injection He' as Hcanon _.
  rewrite (loopBody_match _ _ _ _ _ _ _ _ _ _ He). cbn [fst].
  exists p, ln, (c ++ k1 ++ sev ++ k2 ++ SPACE :: m). eexists.
  split; [done|].
  split; [by apply (forallb_not_elem path_char)|].
  split; [by apply (forallb_not_elem digit)|].
  split; [reflexivity|]. cbn [severity].
  by rewrite severity_word_captured.
Qed.

(** X4: the severity of a diagnostic is read off its own line.  With
    [rest] what follows the second colon of the line, one digit is passed
    over if [rest] begins with one, then the colons that follow; the run of
    word characters found there is the severity, as it stands, and when
    there is none the severity is the default of the check.  So every
    diagnostic of a run has the default severity or a non-empty word of
    one of the lines of the output, and a continuation line leaves it as
    it was. *)
Theorem severity_is_word_or_default
    cmd args cwd severity_ (useStdErr : bool) r :
  (∀ ret out l caps,
     exec diagnostic_re l = Some caps →
     ∃ p ln rest d,
       l = p ++ COLON :: ln ++ COLON :: rest ∧ (COLON ∉ p) ∧ (COLON ∉ ln)
       ∧ (loopBody cwd severity_ (ret, out) l).1 = ret ++ [d]
       ∧ severity d = (if bool_decide (severity_word rest ≠ [])
                       then severity_word rest else severity_))
  ∧ Forall (λ d, ∃ l p ln rest,
              l ∈ split LF (if useStdErr then stderr r else stdout r)
              ∧ l = p ++ COLON :: ln ++ COLON :: rest
              ∧ (COLON ∉ p) ∧ (COLON ∉ ln)
              ∧ severity d = (if bool_decide (severity_word rest ≠ [])
                              then severity_word rest else severity_))
      (parseOutput cmd args cwd severity_ useStdErr r).1
  ∧ Forall (λ d, severity d = severity_
                 ∨ (severity d ≠ [] ∧ forallb word (severity d) = true))
      (parseOutput cmd args cwd severity_ useStdErr r).1.
Proof.
  split.
  { intros ret out l caps He.
    destruct (loopBody_severity cwd severity_ ret out l caps He)
      as (p & ln & rest & d & H1 & H2 & H3 & H4 & H5 & _).
    by exists p, ln, rest, d. }
  unfold parseOutput.
  set (lines := split LF _). set (out0 := [join _ _]).
  set (P := λ d, (∃ l p ln rest,
              l ∈ lines ∧ l = p ++ COLON :: ln ++ COLON :: rest
              ∧ (COLON ∉ p) ∧ (COLON ∉ ln)
              ∧ severity d = (if bool_decide (severity_word rest ≠ [])
                              then severity_word rest else severity_))
            ∧ (severity d = severity_
               ∨ (severity d ≠ [] ∧ forallb word (severity d) = true))).
  assert (H : ∀ ls st, (∀ l, l ∈ ls → l ∈ lines) → Forall P st.1 →
    Forall P (fold_left (loopBody cwd severity_) ls st).1).
  { induction ls as [|l ls IH]; intros [ret out] Hin Hst; cbn [fold_left];
      [done|].
    apply IH; [intros l' Hl'; apply Hin; by right|].
    cbn [fst] in Hst. unfold loopBody. destruct (_ && _) eqn:Hguard.
    - cbn [fst]. apply Forall_alter; [done|]. by intros [] _.
    - destruct (exec diagnostic_re l) as [caps|] eqn:He; [|done].
      destruct (loopBody_severity cwd severity_ ret out l caps He)
        as (p & ln & rest & d & Hl & Hp & Hln & Hd & Hsev & Hword).
      unfold loopBody in Hd. rewrite Hguard, He in Hd.
      destruct caps as [|? [|? [|? [|? [|? [|? ?]]]]]];
        try (cbn [fst] in Hd; apply (f_equal length) in Hd;
             rewrite length_app in Hd; cbn in Hd; lia).
      cbn [fst] in *. rewrite Hd. apply Forall_app. split; [done|].
      apply Forall_singleton. split.
      + exists l, p, ln, rest. split; [apply Hin; left|done].
      + rewrite Hsev. case_bool_decide; [by right|by left]. }
  specialize (H lines ([], out0) ltac:(done) ltac:(constructor)).
  destruct (fold_left _ _ _) as [ret out]. cbn [fst] in *.
  split; eapply Forall_impl; try exact H; by intros d [? ?].
Qed.

Lemma loopBody_tab_last cwd severity_ ret d out l :
  loopBody cwd severity_ (ret ++ [d], out) (TAB :: l)
  = (ret ++ [append_msg (LF :: TAB :: l) d], out).
Proof.
  unfold loopBody. rewrite bool_decide_true by done.
  rewrite bool_decide_true by (rewrite length_app; cbn; lia).
  cbn [andb]. f_equal.
  replace (length (ret ++ [d]) - 1)%nat with (length ret + 0)%nat
    by (rewrite length_app; cbn; lia).
  by rewrite alter_app_r.
Qed.

(** X5: after a diagnostic [d], a run of lines of which none is accepted
    by the pattern changes nothing but the message of [d]: every line of
    the run that begins with a tab is appended to it after a newline, in
    order, also when lines without a tab stand between them; the other
    lines are dropped. *)
Theorem continuation_lines_accumulate cwd severity_ ret d out ls :
  Forall (λ l, exec diagnostic_re l = None) ls →
  fold_left (loopBody cwd severity_) ls (ret ++ [d], out)
  = (ret ++ [append_msg
               (concat (map (λ l : jsstring, LF :: l)
                  (filter (λ l : jsstring, l !! 0%nat = Some TAB) ls))) d],
     out).
Proof.
  intros Hls. revert d. induction Hls as [|l ls Hl Hls IH]; intros d.
  - cbn. destruct d. unfold append_msg. cbn. by rewrite app_nil_r.
  - cbn [fold_left]. rewrite filter_cons.
    destruct (decide (l !! 0%nat = Some TAB)) as [Htab|Htab].
    + destruct l as [|c l]; [done|]. injection Htab as ->.
      rewrite loopBody_tab_last.
      rewrite IH. cbn [map concat]. do 2 f_equal.
      destruct d. unfold append_msg. cbn. by rewrite <- app_assoc.
    + rewrite loopBody_no_match by done. apply IH.
Qed.
Lemma split_elem sep s : ∀ l c, l ∈ split sep s → c ∈ l → c ∈ s.
Proof.
  induction s as [|a s IH]; intros l c Hl Hc; cbn [split] in Hl.
  - apply list_elem_of_singleton in Hl. by subst l.
  - destruct (a =? sep).
    + apply elem_of_cons in Hl as [->|Hl]; [by apply elem_of_nil in Hc|].
      right. by eapply IH.
    + pose proof (split_nonempty sep s) as Hne.
      destruct (split sep s) as [|w ws] eqn:Hs; [done|].
      apply elem_of_cons in Hl as [->|Hl].
      * apply elem_of_cons in Hc as [->|Hc]; [left|right].
        eapply IH; [left|done].
      * right. eapply IH; [by right|done].
Qed.

Lemma exec_diagnostic_re_needs l :
  COLON ∉ l ∨ SPACE ∉ l → exec diagnostic_re l = None.
Proof.
  intros Hl. destruct (exec diagnostic_re l) as [caps|] eqn:He; [|done].
  destruct (exec_diagnostic_re_inv _ _ He)
    as (p & ln & c & k1 & sev & k2 & m & _ & -> & _).
  exfalso. destruct Hl as [Hl|Hl]; apply Hl.
  - apply elem_of_app. right. left.
  - rewrite !elem_of_app, !elem_of_cons, !elem_of_app, !elem_of_cons,
      !elem_of_app, !elem_of_cons. eauto 20.
Qed.

(** X6: an output without a colon, or without a blank, yields no
    diagnostic, and the output channel gets the line of the tool and the
    closing empty line only; the empty output is one such. *)
Theorem output_without_colon_or_blank_is_ignored
    cmd args cwd severity_ (useStdErr : bool) r :
  COLON ∉ (if useStdErr then stderr r else stdout r)
  ∨ SPACE ∉ (if useStdErr then stderr r else stdout r) →
  parseOutput cmd args cwd severity_ useStdErr r
  = ([], [join [SPACE] (js "Finished running tool:" :: cmd :: args); []]).
Proof.
  intros Hs. unfold parseOutput.
  set (stream := if useStdErr then stderr r else stdout r) in *.
  set (out0 := [join _ _]).
  assert (H : ∀ lines, (∀ l, l ∈ lines → l ∈ split LF stream) →
    fold_left (loopBody cwd severity_) lines ([], out0) = ([], out0)).
  { induction lines as [|l lines IH]; intros Hin; cbn [fold_left]; [done|].
    assert (Hl : exec diagnostic_re l = None).
    { apply exec_diagnostic_re_needs.
      assert (l ∈ split LF stream) by (apply Hin; left).
      destruct Hs as [Hs|Hs]; [left|right]; intros Hc; apply Hs;
        by eapply split_elem. }
    assert (loopBody cwd severity_ ([], out0) l = ([], out0)) as ->.
    { unfold loopBody. cbn [length].
      rewrite (bool_decide_false (0 < 0)%nat) by lia.
      by rewrite andb_false_r, Hl. }
    apply IH. intros l' Hl'. apply Hin. by right. }
  by rewrite H.
Qed.

(** ** The test build *)

Lemma exec_from_complete r s x : ∀ pre i,
  run r (i + length pre) s [] (λ _ _ caps, Some caps) = Some x →
  is_Some (exec_from r i (pre ++ s)).
Proof.
  induction pre as [|c pre IH]; intros i H; rewrite exec_from_eq.
  - cbn [length app] in *. rewrite Nat.add_0_r in H. by rewrite H.
  - cbn [app]. destruct (run r i (c :: pre ++ s) [] _); [done|].
    apply IH. cbn [length] in H. by rewrite Nat.add_succ_comm.
Qed.

(** X7: the build check takes the [test] form of the command exactly when
    the file name ends, whatever the case of the letters, with [_test],
    one more character that is no line terminator (the dot of the pattern
    stands for any), and [go]; otherwise it takes the [build] form.  The
    flags of the configuration follow the tags in both. *)
Theorem test_file_name_selects_test_build filename cfg :
  let test_name :=
    ∃ pre t1 e s t2 c g o,
      filename = pre ++ [UNDERSCORE; t1; e; s; t2; c; g; o]
      ∧ is_ci 116 t1 = true ∧ is_ci 101 e = true ∧ is_ci 115 s = true
      ∧ is_ci 116 t2 = true ∧ any c = true
      ∧ is_ci 103 g = true ∧ is_ci 111 o = true in
  let args :=
    match buildCheck filename cfg with
    | Tool _ args _ _ _ _ => args
    | Cover _ => []
    end in
  let tags := DQUOTE :: String_ (buildTags cfg) ++ [DQUOTE] in
  let flags := default [] (buildFlags cfg) in
  (test_name →
   args = [js "test"; js "-copybinary"; js "-o"; tmppath; js "-c";
           js "-tags"; tags] ++ flags ++ [js "."])
  ∧ (¬ test_name →
     args = [js "build"; js "-o"; tmppath; js "-tags"; tags]
            ++ flags ++ [js "."]).
Proof.
  intros test_name args tags flags.
  assert (Hiff : test_name ↔ is_Some (exec test_file_re filename)).
  { split.
    - intros (pre & t1 & e & s & t2 & c & g & o & -> & H1 & H2 & H3 & H4 & H5
              & H6 & H7).
      apply (exec_from_complete _ _ []). cbv [test_file_re cat]. cbn [run].
      by rewrite H1, H2, H3, H4, H5, H6, H7.
    - intros [caps He]. apply exec_from_sound in He as (n & w & s' & Hd & Hm).
      cbv [test_file_re cat] in Hm. cbn [matches] in Hm.
      repeat match goal with
      | H : ∃ _, _ |- _ => destruct H as [? H]
      | H : _ ∧ _ |- _ => destruct H as [? ?]
      | H : exactly _ _ = true |- _ => apply exactly_true in H
      end; subst.
      cbn [app] in Hd. exists (take n filename).
      do 7 eexists.
      split; [rewrite <- (take_drop n filename) at 1; by rewrite Hd|done]. }
  unfold args, buildCheck. split.
  - intros Ht. apply Hiff in Ht as [caps ->]. done.
  - intros Hn. destruct (exec test_file_re filename) eqn:He; [|done].
    destruct Hn. apply Hiff. by eexists.
Qed.

(** ** More on [check] *)

Lemma complete_nothing order : ∀ st w, complete [] order st w = (st, w).
Proof. induction order as [|i order IH]; intros st w; cbn; [done|apply IH]. Qed.

(** X8: with no check enabled, [check] starts nothing and its promise is
    fulfilled with the empty list at once; the log sink has been cleared
    and the notifier has not been called. *)
Theorem check_with_nothing_enabled filename cfg order w :
  buildOnSave cfg = false → lintOnSave cfg = false →
  vetOnSave cfg = false → coverOnSave cfg = false →
  check filename cfg order w
  = (Fulfilled [],
     {| sink := clear (sink w); notifications := notifications w |}).
Proof.
  intros Hb Hl Hv Hc. unfold check, runningToolsPromises.
  rewrite Hb, Hl, Hv, Hc. cbn [app length]. by rewrite complete_nothing.
Qed.

Lemma complete_pending running order : ∀ st w,
  (∀ i t w', i ∈ order → running !! i = Some t →
     ∃ v, (settle t w').1 = Resolved v) →
  (length order < remaining st)%nat →
  promise st = Pending →
  promise (complete running order st w).1 = Pending.
Proof.
  induction order as [|i order IH]; intros st w Hres Hrem Hst;
    cbn [complete]; [done|].
  cbn [length] in Hrem.
  assert (Hres' : ∀ j t w', j ∈ order → running !! j = Some t →
    ∃ v, (settle t w').1 = Resolved v).
  { intros j t w' Hj. apply Hres. by right. }
  destruct (running !! i) as [t|] eqn:Ht; [|apply IH; [done|lia|done]].
  destruct (Hres i t w ltac:(left) Ht) as [v Hv].
  destruct (settle t w) as [r w']. cbn [fst] in Hv. subst r.
  apply IH; [done|cbn; lia|].
  cbn. rewrite Hst. by rewrite decide_False by lia.
Qed.

(** X9: [check] is not fulfilled while a started operation has yet to
    complete, however many have; and if those that have completed all
    resolved, its promise is still pending. *)
Theorem check_waits_for_every_operation filename cfg order w :
  (length order < length (runningToolsPromises filename cfg))%nat →
  (∀ v, (check filename cfg order w).1 ≠ Fulfilled v)
  ∧ ((∀ l s, (appendLine l s).1 = None) →
     (coverOnSave cfg = true → ∃ v, getCoverage filename = Resolved v) →
     (check filename cfg order w).1 = Pending).
Proof.
  intros Hlen. unfold check.
  set (running := runningToolsPromises filename cfg) in *.
  set (w0 := {| sink := clear (sink w); notifications := notifications w |}).
  pose proof (complete_unfulfilled running order (all_init (length running)) w0)
    as Hun.
  pose proof (complete_pending running order (all_init (length running)) w0)
    as Hpe.
  assert (Hinit : promise (all_init (length running)) = Pending).
  { unfold all_init. cbn. by destruct (length running); [lia|]. }
  destruct (complete running order _ w0) as [st w']. cbn [fst] in *. split.
  - intros v Hv.
    assert (Hst : ∀ v, promise st ≠ Fulfilled v).
    { apply Hun; [done|]. intros v'. by rewrite Hinit. }
    destruct (promise st) as [|v'|e]; [done| |done]. by destruct (Hst v').
  - intros Hq Hcov. rewrite Hpe; [done| |done|done].
    intros i t w'' _ Ht. exists (contribution t).
    eapply settle_quiet; [done..|]. by eapply list_elem_of_lookup_2.
Qed.

(** X10: the exception [check] is rejected with is that of the first
    started operation to reject: when the operations that completed before
    it resolved, the rejection of one is the rejection of [check], whatever
    the later ones do. *)
Theorem first_rejection_is_reported filename cfg pre i post w t e :
  let running := runningToolsPromises filename cfg in
  let w0 := {| sink := clear (sink w); notifications := notifications w |} in
  pre ++ i :: post ≡ₚ seq 0 (length running) →
  (∀ j t' w', j ∈ pre → running !! j = Some t' →
     ∃ v, (settle t' w').1 = Resolved v) →
  running !! i = Some t →
  (settle t (complete running pre (all_init (length running)) w0).2).1
    = Rejected e →
  (check filename cfg (pre ++ i :: post) w).1 = Failed e.
Proof.
  intros running w0 Hperm Hpre Ht Hrej. unfold check. fold running w0.
  rewrite complete_app.
  pose proof (complete_pending running pre (all_init (length running)) w0
    Hpre) as Hp.
  destruct (complete running pre _ w0) as [st1 w1]. cbn [fst snd] in *.
  cbn [complete]. rewrite Ht.
  destruct (settle t w1) as [r w2]. cbn [fst] in Hrej. subst r.
  assert (Hst1 : promise st1 = Pending).
  { apply Hp.
    - apply Permutation_length in Hperm.
      rewrite length_seq, length_app in Hperm. cbn [length] in Hperm.
      unfold all_init. cbn [remaining]. lia.
    - assert (i < length running)%nat by by eapply lookup_lt_Some.
      unfold all_init. cbn [promise]. by destruct (length running); [lia|]. }
  pose proof (complete_failed running post (all_settle i (Rejected e) st1)
    w2 e) as Hpost.
  destruct (complete running post _ w2) as [st3 w3]. cbn [fst] in *.
  rewrite Hpost; [done|]. cbn. by rewrite Hst1.
Qed.

Lemma settle_notifications t w :
  notifications (settle t w).2
  = notifications w
    ++ match t with
       | Tool cmd args cwd _ _ notFoundError =>
           if isENOENT (execFile cmd args cwd) then [notFoundError] else []
       | Cover _ => []
       end.
Proof.
  destruct t as [cmd args cwd sev use nf|f]; cbn [settle snd].
  - unfold runTool. destruct (isENOENT _); [done|].
    destruct (parseOutput _ _ _ _ _ _) as [ret out].
    destruct (appendLines out (sink w)) as [[e|] s]; cbn;
      by rewrite app_nil_r.
  - by rewrite app_nil_r.
Qed.

(** X11: the messages [check] hands to the notifier are the not-found
    messages of the tools whose binary is absent, one for each as it
    completes and in that order; a tool that ran, whatever it printed or
    however it exited, and the coverage collector cause none. *)
Theorem check_notifies_absent_tools_only filename cfg order w :
  notifications (check filename cfg order w).2
  = notifications w
    ++ omap (λ i,
         match runningToolsPromises filename cfg !! i with
         | Some (Tool cmd args cwd _ _ notFoundError) =>
             if isENOENT (execFile cmd args cwd) then Some notFoundError
             else None
         | _ => None
         end) order.
Proof.
  unfold check.
  set (running := runningToolsPromises filename cfg).
  set (w0 := {| sink := clear (sink w); notifications := notifications w |}).
  set (f := λ i : nat,
    match running !! i with
    | Some (Tool cmd args cwd _ _ notFoundError) =>
        if isENOENT (execFile cmd args cwd) then Some notFoundError else None
    | _ => None
    end).
  assert (H : ∀ order st w1,
    notifications (complete running order st w1).2
    = notifications w1 ++ omap f order).
  { clear. induction order as [|i order IH]; intros st w1;
      cbn [complete omap list_omap].
    { cbn. by rewrite app_nil_r. }
    unfold f at 1. destruct (running !! i) as [t|] eqn:Ht; [|apply IH].
    pose proof (settle_notifications t w1) as Hn.
    destruct (settle t w1) as [r w2]. cbn [snd] in Hn.
    rewrite IH, Hn, <- app_assoc. f_equal.
    destruct t as [cmd args cwd sev use nf|fn]; [|done].
    by destruct (isENOENT _). }
  specialize (H order (all_init (length running)) w0).
  by destruct (complete running order _ w0).
Qed.

End GoCheck.

(** ** The theorems at work on the example host *)

Local Abbreviation demo_loopBody :=
  (loopBody Demo.process_cwd Demo.NumberToString).
Local Abbreviation demo_parseOutput :=
  (parseOutput Demo.process_cwd Demo.NumberToString).
Local Abbreviation demo_runTool :=
  (runTool Demo.process_cwd Demo.NumberToString (list jsstring)
     Demo.appendLine Demo.execFile).
Local Abbreviation closed_runTool :=
  (runTool Demo.process_cwd Demo.NumberToString (list jsstring)
     Demo.appendLine_closed Demo.execFile).
Local Abbreviation demo_running :=
  (runningToolsPromises Demo.getBinPath Demo.getGoRuntimePath Demo.dirname
     Demo.tmppath Demo.GOROOT Demo.filename Demo.goConfig).
Local Abbreviation demo_check :=
  (check Demo.process_cwd Demo.NumberToString (list jsstring)
     Demo.appendLine Demo.clear Demo.execFile Demo.getCoverage
     Demo.getBinPath Demo.getGoRuntimePath Demo.dirname Demo.tmppath
     Demo.GOROOT).
Local Abbreviation closed_check :=
  (check Demo.process_cwd Demo.NumberToString (list jsstring)
     Demo.appendLine_closed Demo.clear Demo.execFile Demo.getCoverage
     Demo.getBinPath Demo.getGoRuntimePath Demo.dirname Demo.tmppath
     Demo.GOROOT).
Local Abbreviation fresh :=
  ({| sink := []; notifications := [] |} : World (list jsstring)).

(** A line with a one-digit column and an inline severity. *)
Lemma diagnostic_line_parsed_witness :
  (demo_loopBody (js "/proj") (js "error") ([], [])
     (js "util.go:5:7:warning: unused variable x")).1
  = [ {| file := js "/proj/util.go"; line := Finite 5; char := Finite 7;
         msg := js "unused variable x"; severity := js "warning" |} ].
Proof.
  pose proof (diagnostic_line_parsed Demo.process_cwd Demo.NumberToString
    (js "/proj") (js "error") [] [] (js "util.go") (js "5") (js "7")
    (js "warning") (js "unused variable x")
    eq_refl eq_refl ltac:(done) eq_refl ltac:(cbn; lia) eq_refl eq_refl)
    as [H _].
  exact H.
Defined.

(** C1 fails as stated: a column of two digits keeps the line from being
    accepted when a severity follows, and is split into column 1 and
    severity [2] when none does; a message that ends in a carriage return
    keeps the line from being accepted too; and a line number above 2^53
    is rounded to the nearest double. *)
Lemma two_digit_column_is_not_parsed :
  (demo_loopBody (js "/proj") (js "error") ([], [])
     (js "util.go:5:12:warning: unused variable x")).1 = []
  ∧ (demo_loopBody (js "/proj") (js "error") ([], [])
       (js "util.go:5:12:: unused variable x")).1
    = [ {| file := js "/proj/util.go"; line := Finite 5; char := Finite 1;
           msg := js "unused variable x"; severity := js "2" |} ]
  ∧ (demo_loopBody (js "/proj") (js "error") ([], [])
       (js "util.go:5:7:warning: unused variable x" ++ [CR])).1 = []
  ∧ (demo_loopBody (js "/proj") (js "error") ([], [])
       (js "util.go:9007199254740993:7:warning: unused variable x")).1
    = [ {| file := js "/proj/util.go"; line := Finite 9007199254740992;
           char := Finite 7; msg := js "unused variable x";
           severity := js "warning" |} ].
Proof. vm_compute. auto. Qed.

(** C6: the scenario of the specification.  The output
    [util.go:5:12:warning: unused variable x] yields no diagnostic: after
    the first column digit the pattern wants colons, a word, colons and a
    blank, and finds [2:warning: ]. *)
Theorem inline_severity_scenario_yields_nothing :
  (demo_parseOutput (js "golint") [] (js "/proj") (js "error") false
     {| err := None;
        stdout := js "util.go:5:12:warning: unused variable x" ++ [LF];
        stderr := [] |}).1 = [].
Proof. vm_compute. reflexivity. Qed.

(** The four checks of the example complete in the order vet, build,
    coverage, lint. *)
Lemma check_concatenates_in_fixed_order_witness :
  (demo_check Demo.filename Demo.goConfig [2; 0; 3; 1]%nat fresh).1
  = Fulfilled [Demo.undeclared; Demo.unreachable; Demo.uncovered].
Proof.
  assert (Hperm : [2; 0; 3; 1]%nat ≡ₚ seq 0 (length demo_running)).
  { refine (bool_decide_unpack _ _). vm_compute. exact I. }
  pose proof (check_concatenates_in_fixed_order
    Demo.process_cwd Demo.NumberToString (list jsstring) Demo.appendLine
    Demo.clear Demo.execFile Demo.getCoverage Demo.getBinPath
    Demo.getGoRuntimePath Demo.dirname Demo.tmppath Demo.GOROOT
    Demo.filename Demo.goConfig [2; 0; 3; 1]%nat fresh Hperm)
    as (_ & H & _).
  exact (H (λ _ _, eq_refl) (λ _, ex_intro _ [Demo.uncovered] eq_refl)).
Defined.

(** The linter of the example is not installed. *)
Lemma absent_tool_resolves_empty_and_notifies_witness :
  let notFoundError :=
    js "The 'golint' command is not available.  Please install it." in
  demo_runTool (js "golint") [Demo.filename] (js "/proj") (js "warning")
    false notFoundError fresh
  = (Resolved [], {| sink := []; notifications := [notFoundError] |})
  ∧ (demo_check Demo.filename Demo.goConfig [3; 1; 0; 2]%nat fresh).1
    = Fulfilled [Demo.undeclared; Demo.unreachable; Demo.uncovered].
Proof.
  intros notFoundError.
  destruct (absent_tool_resolves_empty_and_notifies
    Demo.process_cwd Demo.NumberToString (list jsstring) Demo.appendLine
    Demo.clear Demo.execFile Demo.getCoverage Demo.getBinPath
    Demo.getGoRuntimePath Demo.dirname Demo.tmppath Demo.GOROOT
    (js "golint") [Demo.filename] (js "/proj") (js "warning") false
    notFoundError eq_refl) as [Hrun Hcheck].
  split; [exact (Hrun fresh)|].
  apply (Hcheck Demo.filename Demo.goConfig 1%nat [3; 1; 0; 2]%nat fresh).
  - reflexivity.
  - intros j t w' _ Ht. apply (settle_quiet _ _ _ _ _ _ Demo.getBinPath
      Demo.getGoRuntimePath Demo.dirname Demo.tmppath Demo.GOROOT
      Demo.filename Demo.goConfig).
    + done.
    + intros _. by eexists.
    + by eapply list_elem_of_lookup_2.
  - refine (bool_decide_unpack _ _). vm_compute. exact I.
Defined.

(** The output channel has been closed: the build check, completing
    second, hits the exception at its first line of log, and [check] is
    rejected although the coverage collector had resolved. *)
Lemma rejected_check_rejects_whole_operation_witness :
  ∃ e', (closed_check Demo.filename Demo.goConfig [3; 0; 1; 2]%nat fresh).1
        = Failed e'.
Proof.
  assert (Hperm : [3]%nat ++ 0%nat :: [1; 2]%nat ≡ₚ seq 0 (length demo_running)).
  { refine (bool_decide_unpack _ _). vm_compute. exact I. }
  destruct (rejected_check_rejects_whole_operation
    Demo.process_cwd Demo.NumberToString (list jsstring)
    Demo.appendLine_closed Demo.clear Demo.execFile Demo.getCoverage
    Demo.getBinPath Demo.getGoRuntimePath Demo.dirname Demo.tmppath
    Demo.GOROOT Demo.filename Demo.goConfig [3]%nat 0%nat [1; 2]%nat fresh
    Hperm) as [Hparse _].
  eapply (Hparse _ _ _ _ _ _ (js "Channel has been closed")).
  - reflexivity.
  - reflexivity.
  - vm_compute. reflexivity.
Defined.

(** C5 fails as stated: with the output channel closed, the promise of
    [runTool] is rejected, though the tool ran and printed its findings. *)
Lemma runTool_rejects_when_sink_throws :
  (closed_runTool Demo.getGoRuntimePath [js "build"; js "."] (js "/proj")
     (js "error") true (js "No go binary") fresh).1
  = Rejected (js "Channel has been closed").
Proof. vm_compute. reflexivity. Qed.

(** The build check of the example. *)
Lemma runTool_diagnostics_positioned_witness :
  Forall positioned [Demo.undeclared].
Proof.
  apply (runTool_diagnostics_positioned
    Demo.process_cwd Demo.NumberToString (list jsstring) Demo.appendLine
    Demo.execFile Demo.getGoRuntimePath [js "build"; js "."] (js "/proj")
    (js "error") true (js "No go binary") fresh [Demo.undeclared]).
  - reflexivity.
  - vm_compute. reflexivity.
Defined.

(** C8 fails as stated: a tool that reports line 0 gets a diagnostic on
    line 0. *)
Lemma reported_line_zero_is_kept :
  (demo_parseOutput (js "golint") [] (js "/proj") (js "warning") false
     {| err := None; stdout := js "main.go:0:1: package comment missing";
        stderr := [] |}).1
  = [ {| file := js "/proj/main.go"; line := Finite 0; char := Finite 1;
         msg := js "package comment missing"; severity := js "warning" |} ].
Proof. vm_compute. reflexivity. Qed.

(** A path with directories in it, reported to a run in [/proj]. *)
Lemma matched_line_file_is_cwd_basename_witness :
  ∃ d,
    (demo_loopBody (js "/proj") (js "error") ([], [])
       (js "src/pkg/main.go:10:0: undeclared name: foo")).1 = [d]
    ∧ file d = js "/proj/main.go".
Proof.
  destruct (matched_line_file_is_cwd_basename Demo.process_cwd
    Demo.NumberToString (js "/proj") (js "error") [] []
    (js "src/pkg/main.go") (js "10:0: undeclared name: foo")
    [js "src/pkg/main.go"; js "10"; js "0"; js ""; js "undeclared name: foo"]
    [js "proj"]) as (d & Hd & _ & Hfile & _).
  - vm_compute. reflexivity.
  - refine (bool_decide_unpack _ _). vm_compute. exact I.
  - reflexivity.
  - constructor; [|constructor].
    refine (bool_decide_unpack _ _). vm_compute. exact I.
  - exists d. split; [exact Hd|].
    apply Hfile; [|done].
    refine (bool_decide_unpack _ _). vm_compute. exact I.
Defined.

(** The first scenario of the specification: a finding with column 0 and
    a continuation line. *)
Example continuation_scenario :
  (demo_parseOutput Demo.getGoRuntimePath [js "build"; js "."] (js "/proj")
     (js "error") true
     {| err := Some (ExitStatus 2); stdout := [];
        stderr := Demo.build_output |}).1
  = [Demo.undeclared].
Proof. vm_compute. reflexivity. Qed.

Example matched_line_file_example :
  (demo_loopBody (js "/proj") (js "error") ([], [])
     (js "src/pkg/main.go:10:0: undeclared name: foo")).1
  = [ {| file := js "/proj/main.go"; line := Finite 10; char := Finite 1;
         msg := js "undeclared name: foo"; severity := js "error" |} ].
Proof. vm_compute. reflexivity. Qed.

(** ** Further properties at work on the example host *)

(** A finding followed by a note without a tab and two continuation
    lines. *)
Lemma continuation_lines_accumulate_witness :
  fold_left (demo_loopBody (js "/proj") (js "error"))
    [TAB :: js "have (int)"; js "note: see above"; TAB :: js "want (string)"]
    ([Demo.unreachable], [])
  = ([ {| file := js "/proj/main.go"; line := Finite 3; char := Finite 1;
          msg := js "unreachable code" ++ [LF; TAB] ++ js "have (int)"
                 ++ [LF; TAB] ++ js "want (string)";
          severity := js "warning" |} ], []).
Proof.
  apply (continuation_lines_accumulate Demo.process_cwd Demo.NumberToString
    (js "/proj") (js "error") [] Demo.unreachable []
    [TAB :: js "have (int)"; js "note: see above"; TAB :: js "want (string)"]).
  repeat constructor.
Defined.

(** A test run that prints no finding. *)
Lemma output_without_colon_or_blank_is_ignored_witness :
  demo_parseOutput (js "go") [js "vet"] (js "/proj") (js "warning") false
    {| err := None; stdout := js "PASS" ++ [LF] ++ js "ok" ++ [LF];
       stderr := js "exit status 1: ignored stream" |}
  = ([], [js "Finished running tool: go vet"; []]).
Proof.
  apply (output_without_colon_or_blank_is_ignored Demo.process_cwd
    Demo.NumberToString (js "go") [js "vet"] (js "/proj") (js "warning") false
    {| err := None; stdout := js "PASS" ++ [LF] ++ js "ok" ++ [LF];
       stderr := js "exit status 1: ignored stream" |}).
  left. refine (bool_decide_unpack _ _). vm_compute. exact I.
Defined.

(** A configuration that enables nothing, read after three completions
    that cannot have happened. *)
Lemma check_with_nothing_enabled_witness :
  demo_check Demo.filename
    {| buildOnSave := false; buildFlags := None; buildTags := None;
       lintOnSave := false; linter := None; lintFlags := None;
       vetOnSave := false; vetFlags := None; coverOnSave := false |}
    [0; 1; 2]%nat {| sink := [js "old line"]; notifications := [] |}
  = (Fulfilled [], {| sink := []; notifications := [] |}).
Proof.
  apply (check_with_nothing_enabled Demo.process_cwd Demo.NumberToString
    (list jsstring) Demo.appendLine Demo.clear Demo.execFile Demo.getCoverage
    Demo.getBinPath Demo.getGoRuntimePath Demo.dirname Demo.tmppath
    Demo.GOROOT); reflexivity.
Defined.

(** Two of the four checks of the example have completed. *)
Lemma check_waits_for_every_operation_witness :
  (∀ v, (demo_check Demo.filename Demo.goConfig [2; 0]%nat fresh).1
        ≠ Fulfilled v)
  ∧ (demo_check Demo.filename Demo.goConfig [2; 0]%nat fresh).1 = Pending.
Proof.
  destruct (check_waits_for_every_operation Demo.process_cwd
    Demo.NumberToString (list jsstring) Demo.appendLine Demo.clear
    Demo.execFile Demo.getCoverage Demo.getBinPath Demo.getGoRuntimePath
    Demo.dirname Demo.tmppath Demo.GOROOT Demo.filename Demo.goConfig
    [2; 0]%nat fresh) as [Hnot Hpending].
  - vm_compute. lia.
  - split; [exact Hnot|].
    apply Hpending; [done|]. intros _. by eexists.
Defined.

(** The output channel is closed; coverage resolves first, then the build
    check rejects. *)
Lemma first_rejection_is_reported_witness :
  (closed_check Demo.filename Demo.goConfig [3; 0; 1; 2]%nat fresh).1
  = Failed (js "Channel has been closed").
Proof.
  apply (first_rejection_is_reported Demo.process_cwd Demo.NumberToString
    (list jsstring) Demo.appendLine_closed Demo.clear Demo.execFile
    Demo.getCoverage Demo.getBinPath Demo.getGoRuntimePath Demo.dirname
    Demo.tmppath Demo.GOROOT Demo.filename Demo.goConfig [3]%nat 0%nat
    [1; 2]%nat fresh
    (buildCheck Demo.getGoRuntimePath Demo.dirname Demo.tmppath Demo.GOROOT
       Demo.filename Demo.goConfig)).
  - refine (bool_decide_unpack _ _). vm_compute. exact I.
  - intros j t' w' Hj Ht. apply list_elem_of_singleton in Hj. subst j.
    vm_compute in Ht. injection Ht as <-. by eexists.
  - reflexivity.
  - vm_compute. reflexivity.
Defined.

(** A column of two digits without severity: the first digit is the
    column, the second ends up as the severity. *)
Lemma accepted_line_fields_witness :
  ∃ p ln rest head m d,
    js "main.go:7:12: x declared and not used"
      = p ++ COLON :: ln ++ COLON :: rest
    ∧ (COLON ∉ p) ∧ (COLON ∉ ln)
    ∧ js "main.go:7:12: x declared and not used" = head ++ SPACE :: m
    ∧ (SPACE ∉ head)
    ∧ (demo_loopBody (js "/proj") (js "error") ([], [])
         (js "main.go:7:12: x declared and not used")).1 = [] ++ [d]
    ∧ line d = ToNumber ln
    ∧ char d = match rest with
               | dg :: _ =>
                   if digit dg then Finite (Z.max 1 (digit_value dg))
                   else Finite 1
               | [] => Finite 1
               end
    ∧ msg d = m.
Proof.
  apply (accepted_line_fields Demo.process_cwd Demo.NumberToString
    (js "/proj") (js "error") [] []
    (js "main.go:7:12: x declared and not used")
    [js "main.go"; js "7"; js "1"; js "2"; js "x declared and not used"]).
  vm_compute. reflexivity.
Defined.

(** The unescaped dot of the test file pattern: this name counts as a
    test file. *)
Example test_file_name_with_any_separator :
  exec test_file_re (js "/proj/util_TESTxGO") = Some []
  ∧ exec test_file_re (js "/proj/util_test.go.bak") = None.
Proof. vm_compute. auto. Qed.

(** The severity word is kept as written, capitals and digits included. *)
Example severity_is_kept_as_written :
  severity <$> (demo_loopBody (js "/proj") (js "error") ([], [])
                  (js "a.go:3:1:Warning_2: shadowed")).1
  = [js "Warning_2"].
Proof. vm_compute. reflexivity. Qed.
